(** * The web API of the employee-handbook chat: chunking, lexical retrieval
      and the /chat handler of [packages/webapi/server.js].

    JavaScript strings are modelled as lists of code units.  The code units
    are those of the Latin-1 range (U+0000 to U+00FF), one [ascii] each, so
    that [length] is the [.length] of the source. *)

From Stdlib Require Import Ascii String.
From Stdlib Require Import List Arith ZArith Lia Bool Permutation Sorted.
Import ListNotations.

Set Implicit Arguments.

(** ** Strings *)

Definition str := list ascii.

Definition lit (s : string) : str := list_ascii_of_string s.

Definition code (c : ascii) : nat := nat_of_ascii c.

(** The characters matched by [\s] below U+0100: TAB, LF, VT, FF, CR, SPACE
    and NO-BREAK SPACE. *)
Definition is_space (c : ascii) : bool :=
  let n := code c in
  ((9 <=? n) && (n <=? 13)) || (n =? 32) || (n =? 160).

Definition SP : ascii := " "%char.

Definition starts_with_space (s : str) : bool :=
  match s with
  | c :: _ => is_space c
  | [] => false
  end.

(** [s.split(/\s+/)]: the pieces between the maximal runs of white space.
    A run at either end of [s] leaves an empty piece there, and the empty
    string splits into one empty piece. *)
Fixpoint split_ws (s : str) : list str :=
  match s with
  | [] => [[]]
  | c :: s' =>
      if is_space c then
        if starts_with_space s' then split_ws s' else [] :: split_ws s'
      else
        match split_ws s' with
        | w :: ws => (c :: w) :: ws
        | [] => [[c]]
        end
  end.

Definition nonempty (s : str) : bool :=
  match s with
  | [] => false
  | _ :: _ => true
  end.

(** The white-space delimited tokens of a text: its maximal runs of
    characters that are not white space. *)
Definition tokens (s : str) : list str := filter nonempty (split_ws s).

(** [parts.join(sep)] *)
Fixpoint join (sep : str) (parts : list str) : str :=
  match parts with
  | [] => []
  | [p] => p
  | p :: rest => p ++ sep ++ join sep rest
  end.

(** ** PDF loading and chunking *)

Definition CHUNK_SIZE : nat := 800.

(** The [for (const word of words)] loop of [loadPDF] followed by the final
    flush: the chunks pushed, in the order of the pushes, when the loop is
    entered with [currentChunk]. *)
Fixpoint chunkWords (currentChunk : str) (words : list str) : list str :=
  match words with
  | [] => if nonempty currentChunk then [currentChunk] else []
  | word :: rest =>
      if length (currentChunk ++ [SP] ++ word) <=? CHUNK_SIZE then
        chunkWords
          (currentChunk ++ (if nonempty currentChunk then [SP] else []) ++ word)
          rest
      else currentChunk :: chunkWords word rest
  end.

Definition chunkText (text : str) : list str := chunkWords [] (split_ws text).

(** [text.toLowerCase()] on one code unit: Basic Latin A-Z and the Latin-1
    capitals U+00C0 to U+00DE (the multiplication sign U+00D7 apart) move up
    by 32, everything else stays.  This is the whole of the mapping on
    Latin-1; a character whose lower case has more code units than itself
    (U+0130) lies outside the range. *)
Definition lowerChar (c : ascii) : ascii :=
  let n := code c in
  if ((65 <=? n) && (n <=? 90))
     || ((192 <=? n) && (n <=? 222) && negb (n =? 215))
  then ascii_of_nat (n + 32) else c.

Definition toLowerCase (s : str) : str := map lowerChar s.

(** ** Regular expressions

    [new RegExp(term, "gi")] receives the query term as pattern source.  The
    fragment of the pattern grammar modelled here has the pattern characters,
    the assertions [^] and [$], the quantifiers [*] and [+] on a character,
    and [|].  Whatever else the grammar has starts with one of
    [\ . ? ( ) [ ] { }]; a source that contains one of these before any error
    is outside the fragment. *)

Inductive term : Type :=
  | TChar (c : ascii)
  | TStar (c : ascii)
  | TPlus (c : ascii)
  | TBol
  | TEol.

Definition alternative := list term.
Definition pattern := list alternative.

Inductive parsed : Type :=
  | Parsed (p : pattern)
  | Invalid
  | Beyond.

Definition is_quantifier (c : ascii) : bool :=
  (code c =? 42) || (code c =? 43).

(** [\ . ? ( ) [ ] { }] *)
Definition is_beyond (c : ascii) : bool :=
  existsb (Nat.eqb (code c)) [92; 46; 63; 40; 41; 91; 93; 123; 125].

Definition addTerm (t : term) (r : parsed) : parsed :=
  match r with
  | Parsed (a :: alts) => Parsed ((t :: a) :: alts)
  | Parsed [] => Parsed [[t]]
  | other => other
  end.

Definition addAlternative (r : parsed) : parsed :=
  match r with
  | Parsed alts => Parsed ([] :: alts)
  | other => other
  end.

(** The parser reads left to right; [prev] is the pattern character read
    last and not yet put out, which a quantifier may follow.  A quantifier
    anywhere else has nothing to repeat: a SyntaxError. *)
Fixpoint parseFrom (prev : option ascii) (s : str) : parsed :=
  let flush r := match prev with Some c => addTerm (TChar c) r | None => r end in
  match s with
  | [] => flush (Parsed [[]])
  | c :: s' =>
      if is_quantifier c then
        match prev with
        | None => Invalid
        | Some a =>
            addTerm (if code c =? 42 then TStar a else TPlus a)
                    (parseFrom None s')
        end
      else if is_beyond c then Beyond
      else if code c =? 124 then flush (addAlternative (parseFrom None s'))
      else if code c =? 94 then flush (addTerm TBol (parseFrom None s'))
      else if code c =? 36 then flush (addTerm TEol (parseFrom None s'))
      else flush (parseFrom (Some c) s')
  end.

Definition parsePattern (source : str) : parsed := parseFrom None source.

(** Canonicalize of the [i] flag (no [u] flag): the code unit of the upper
    case of the character when that is one code unit.  MICRO SIGN goes to
    U+039C, y with diaeresis to U+0178, and sharp s, whose upper case is two
    characters, stays. *)
Definition canonicalize (c : ascii) : nat :=
  let n := code c in
  if ((97 <=? n) && (n <=? 122))
     || ((224 <=? n) && (n <=? 254) && negb (n =? 247))
  then n - 32
  else if n =? 181 then 924
  else if n =? 255 then 376
  else n.

Definition sameChar (a b : ascii) : bool := canonicalize a =? canonicalize b.

(** Greedy repetition of one character before the continuation [k]: longest
    run first, giving back one character at a time. *)
Fixpoint greedy (c : ascii) (k : bool -> str -> option nat)
    (atStart : bool) (s : str) : option nat :=
  match s with
  | x :: s' =>
      if sameChar c x then
        match greedy c k false s' with
        | Some n => Some (S n)
        | None => k atStart s
        end
      else k atStart s
  | [] => k atStart s
  end.

(** The number of code units the alternative matches at the head of [s], on
    the first successful path of the backtracking matcher; [atStart] tells
    that [s] is the whole subject (index 0). *)
Fixpoint matchTerms (ts : alternative) : bool -> str -> option nat :=
  match ts with
  | [] => fun _ _ => Some 0
  | TChar c :: r => fun _ s =>
      match s with
      | x :: s' => if sameChar c x then option_map S (matchTerms r false s')
                   else None
      | [] => None
      end
  | TStar c :: r => greedy c (matchTerms r)
  | TPlus c :: r => fun _ s =>
      match s with
      | x :: s' => if sameChar c x
                   then option_map S (greedy c (matchTerms r) false s')
                   else None
      | [] => None
      end
  | TBol :: r => fun atStart s => if atStart then matchTerms r atStart s else None
  | TEol :: r => fun atStart s =>
      match s with
      | [] => matchTerms r atStart s
      | _ :: _ => None
      end
  end.

Fixpoint matchAt (p : pattern) (atStart : bool) (s : str) : option nat :=
  match p with
  | [] => None
  | a :: rest =>
      match matchTerms a atStart s with
      | Some n => Some n
      | None => matchAt rest atStart s
      end
  end.

(** [subject.match(regex)] with the [g] flag, as the number of matches: the
    scan starts at index 0, each search resumes where the last match ended,
    one further on after an empty match, and ends when no match is left or
    the index passes the end.  [skip] counts the code units of the last match
    still to be passed. *)
Fixpoint countFrom (p : pattern) (skip : nat) (atStart : bool) (s : str) : nat :=
  match s with
  | [] =>
      match skip with
      | 0 => match matchAt p atStart [] with Some _ => 1 | None => 0 end
      | S _ => 0
      end
  | _ :: s' =>
      match skip with
      | S k => countFrom p k false s'
      | 0 =>
          match matchAt p atStart s with
          | Some n => S (countFrom p (pred n) false s')
          | None => countFrom p 0 false s'
          end
      end
  end.

Definition matchCount (p : pattern) (subject : str) : nat :=
  countFrom p 0 true subject.

(** ** Exceptions *)

Inductive exn : Type :=
  | SyntaxError
  | TypeError
  | Failure (reason : str).

Inductive res (A : Type) : Type :=
  | Ok (a : A)
  | Throw (e : exn).

Arguments Ok {A} a.
Arguments Throw {A} e.

(** [const matches = subject.match(new RegExp(source, "gi"))] and then
    [matches ? matches.length : 0].  [beyond] is the engine on the sources
    outside the modelled fragment. *)
Definition regexpMatchCount (beyond : str -> str -> res nat)
    (source subject : str) : res nat :=
  match parsePattern source with
  | Parsed p => Ok (matchCount p subject)
  | Invalid => Throw SyntaxError
  | Beyond => beyond source subject
  end.

(** ** Retrieval *)

(** The characters of the class that [retrieveRelevantContent] strips from
    a term: full stop, comma, question and exclamation mark, semicolon,
    colon, the two parentheses, the double quote and the apostrophe. *)
Definition is_punct (c : ascii) : bool :=
  existsb (Nat.eqb (code c)) [46; 44; 63; 33; 59; 58; 40; 41; 34; 39].

(** [term.replace(...)] of that class by the empty string, with [g]. *)
Definition stripPunct (t : str) : str := filter (fun c => negb (is_punct c)) t.

Definition queryTerms (query : str) : list str :=
  map stripPunct
      (filter (fun t => 3 <? length t) (split_ws (toLowerCase query))).

Record scoredChunk : Type := { chunk : str; score : nat }.

(** [arr.sort((a, b) => b.score - a.score)]: the sort of the language is
    stable, which fixes its result; it is computed here by insertion.  An
    item goes in front of the first one whose score is not greater. *)
Fixpoint insertByScore (x : scoredChunk) (l : list scoredChunk) : list scoredChunk :=
  match l with
  | [] => [x]
  | y :: l' =>
      if score x <? score y then y :: insertByScore x l' else x :: y :: l'
  end.

Fixpoint sortByScore (l : list scoredChunk) : list scoredChunk :=
  match l with
  | [] => []
  | x :: l' => insertByScore x (sortByScore l')
  end.

(** The tail of [retrieveRelevantContent]:
    [.filter(score > 0).sort(...).slice(0, 3).map(item => item.chunk)] *)
Definition topChunks (scoredChunks : list scoredChunk) : list str :=
  map chunk
      (firstn 3 (sortByScore (filter (fun item => 0 <? score item) scoredChunks))).

Section Retrieval.

Variable beyond : str -> str -> res nat.

(** The [for (const term of queryTerms)] loop on one chunk. *)
Fixpoint scoreTerms (chunkLower : str) (terms : list str) (acc : nat) : res nat :=
  match terms with
  | [] => Ok acc
  | t :: rest =>
      match regexpMatchCount beyond t chunkLower with
      | Ok n => scoreTerms chunkLower rest (acc + n)
      | Throw e => Throw e
      end
  end.

Definition scoreChunk (terms : list str) (c : str) : res scoredChunk :=
  match scoreTerms (toLowerCase c) terms 0 with
  | Ok n => Ok {| chunk := c; score := n |}
  | Throw e => Throw e
  end.

(** [pdfChunks.map(chunk => ...)] *)
Fixpoint scoreChunks (terms : list str) (chunks : list str) : res (list scoredChunk) :=
  match chunks with
  | [] => Ok []
  | c :: rest =>
      match scoreChunk terms c with
      | Ok item =>
          match scoreChunks terms rest with
          | Ok items => Ok (item :: items)
          | Throw e => Throw e
          end
      | Throw e => Throw e
      end
  end.

Definition retrieveRelevantContent (pdfChunks : list str) (query : str)
  : res (list str) :=
  let terms := queryTerms query in
  match terms with
  | [] => Ok []
  | _ :: _ =>
      match scoreChunks terms pdfChunks with
      | Ok scoredChunks => Ok (topChunks scoredChunks)
      | Throw e => Throw e
      end
  end.

End Retrieval.

(** ** The /chat handler *)

(** The values a parsed JSON body holds in a field; a field that is absent
    reads as [JUndefined], [JNum] holds the whole numbers, and [JObject]
    stands for the objects and arrays. *)
Inductive jsval : Type :=
  | JUndefined
  | JNull
  | JBool (b : bool)
  | JNum (n : Z)
  | JStr (s : str)
  | JObject.

Definition truthy (v : jsval) : bool :=
  match v with
  | JUndefined | JNull => false
  | JBool b => b
  | JNum n => negb (n =? 0)%Z
  | JStr s => nonempty s
  | JObject => true
  end.

(** [v ?? d] *)
Definition nullish (v d : jsval) : jsval :=
  match v with
  | JUndefined | JNull => d
  | _ => v
  end.

(** [v || d] *)
Definition orDefault (v d : jsval) : jsval := if truthy v then v else d.

Fixpoint str_eqb (a b : str) : bool :=
  match a, b with
  | [], [] => true
  | x :: a', y :: b' => Ascii.eqb x y && str_eqb a' b'
  | _, _ => false
  end.

(** [req.body] *)
Record request : Type :=
  { message : jsval; useRAG : jsval; sessionId : jsval; mode : jsval }.

Inductive role : Type := system | user | assistant.

Record chatMessage : Type := { msgRole : role; content : str }.

Inductive response : Type :=
  | R200 (reply : str) (sources : list str)
  | R400
  | R500 (err : exn).

(** What one request meets outside the handler: the handbook file ([None]
    when [fs.existsSync] is false, [Throw] when reading or parsing fails,
    else the parsed text), the chat model, the agent service, the coercion
    of a value that is not a string to a property key ([None] when it
    throws: an object whose [toString] and [valueOf] give no primitive),
    and the regular expression engine outside the modelled fragment. *)
Record world : Type :=
  { pdfFile : option (res str);
    chatInvoke : list chatMessage -> res str;
    agentProcess : jsval -> str -> res str;
    ToString : jsval -> option str;
    regexpBeyond : str -> str -> res nat }.

(** The module-level variables: [sessionMemories] (each memory by the
    messages of its chat history), [pdfText] ([None] for [null]) and
    [pdfChunks]. *)
Record state : Type :=
  { sessionMemories : str -> option (list chatMessage);
    pdfText : option str;
    pdfChunks : list str }.

Definition initialState : state :=
  {| sessionMemories := fun _ => None; pdfText := None; pdfChunks := [] |}.

Inductive event : Type :=
  | EvLoadPDF
  | EvRetrieve (query : str)
  | EvAgent (sid : jsval) (text : str)
  | EvModel (messages : list chatMessage).

(** State, exceptions and the calls made, threaded through the handler. *)
Definition M (A : Type) : Type := state -> res A * state * list event.

Definition ret {A} (a : A) : M A := fun st => (Ok a, st, []).

Definition bind {A B} (m : M A) (f : A -> M B) : M B :=
  fun st =>
    match m st with
    | (Ok a, st1, ev1) =>
        let '(r, st2, ev2) := f a st1 in (r, st2, ev1 ++ ev2)
    | (Throw e, st1, ev1) => (Throw e, st1, ev1)
    end.

Notation "x <- m ;; k" := (bind m (fun x => k))
  (at level 61, m at next level, right associativity).

Definition emit (e : event) : M unit := fun st => (Ok tt, st, [e]).

Definition lift {A} (r : res A) : M A := fun st => (r, st, []).

(** The names that the object literal behind [sessionMemories] inherits from
    [Object.prototype]; each reads as a truthy value that is no memory. *)
Definition inheritedNames : list str :=
  map lit
      ["constructor"; "__defineGetter__"; "__defineSetter__"; "hasOwnProperty";
       "__lookupGetter__"; "__lookupSetter__"; "isPrototypeOf";
       "propertyIsEnumerable"; "toString"; "valueOf"; "__proto__";
       "toLocaleString"]%string.

Definition inherited (key : str) : bool := existsb (str_eqb key) inheritedNames.

Definition propertyKey (w : world) (v : jsval) : option str :=
  match v with
  | JStr s => Some s
  | _ => ToString w v
  end.

(** What [sessionMemories[sessionId]] hands out: the memory stored under a
    key, or an inherited member. *)
Inductive memref : Type :=
  | Memory (key : str)
  | Inherited.

Definition history (st : state) (key : str) : list chatMessage :=
  match sessionMemories st key with
  | Some h => h
  | None => []
  end.

Definition setMemory (key : str) (h : list chatMessage) (st : state) : state :=
  {| sessionMemories := fun k => if str_eqb k key then Some h else sessionMemories st k;
     pdfText := pdfText st;
     pdfChunks := pdfChunks st |}.

Definition getSessionMemory (w : world) (sid : jsval) : M memref :=
  fun st =>
    match propertyKey w sid with
    | None => (Throw TypeError, st, [])
    | Some key =>
        if inherited key then (Ok Inherited, st, [])
        else
          match sessionMemories st key with
          | Some _ => (Ok (Memory key), st, [])
          | None => (Ok (Memory key), setMemory key [] st, [])
          end
    end.

(** [memory.loadMemoryVariables({})] and then [.chat_history || []] *)
Definition loadMemoryVariables (m : memref) : M (list chatMessage) :=
  fun st =>
    match m with
    | Memory key => (Ok (history st key), st, [])
    | Inherited => (Throw TypeError, st, [])
    end.

(** [memory.saveContext({ input }, { output })] *)
Definition saveContext (m : memref) (input output : str) : M unit :=
  fun st =>
    match m with
    | Memory key =>
        (Ok tt,
         setMemory key
           (history st key
              ++ [ {| msgRole := user; content := input |};
                   {| msgRole := assistant; content := output |} ]) st,
         [])
    | Inherited => (Throw TypeError, st, [])
    end.

Definition notFound : str := lit "PDF not found.".

Definition loadPDF (w : world) : M str :=
  fun st =>
    match pdfText st with
    | Some (c :: t) => (Ok (c :: t), st, [])
    | _ =>
        match pdfFile w with
        | None => (Ok notFound, st, [])
        | Some (Throw e) => (Throw e, st, [])
        | Some (Ok text) =>
            (Ok text,
             {| sessionMemories := sessionMemories st;
                pdfText := Some text;
                pdfChunks := pdfChunks st ++ chunkText text |},
             [])
        end
    end.

Definition retrieve (w : world) (query : str) : M (list str) :=
  fun st =>
    (retrieveRelevantContent (regexpBeyond w) (pdfChunks st) query, st, []).

Definition NL : ascii := ascii_of_nat 10.
Definition DQ : ascii := ascii_of_nat 34.

Definition genericPrompt : str :=
  lit "You are a helpful and knowledgeable assistant. Answer the user's questions concisely and informatively.".

Definition refusalPrompt : str :=
  lit "You are a helpful assistant for Contoso Electronics. The excerpts do not contain relevant information for this question. Reply politely: "
  ++ [DQ]
  ++ lit "I'm sorry, I don't know. The employee handbook does not contain information about that."
  ++ [DQ].

Definition excerptsPrompt (sources : list str) : str :=
  lit "You are a helpful assistant for Contoso Electronics. You must ONLY use the information provided below to answer."
  ++ [NL; NL] ++ lit "--- EMPLOYEE HANDBOOK EXCERPTS ---" ++ [NL]
  ++ join [NL; NL] sources
  ++ [NL] ++ lit "--- END OF EXCERPTS ---".

Definition systemMessage (useRAG : jsval) (sources : list str) : chatMessage :=
  {| msgRole := system;
     content :=
       if truthy useRAG then
         match sources with
         | _ :: _ => excerptsPrompt sources
         | [] => refusalPrompt
         end
       else genericPrompt |}.

Definition isAgent (mode : jsval) : bool :=
  match mode with
  | JStr s => str_eqb s (lit "agent")
  | _ => false
  end.

Definition isString (v : jsval) : bool :=
  match v with
  | JStr _ => true
  | _ => false
  end.

(** The text of a value known to be a string. *)
Definition asString (v : jsval) : str :=
  match v with
  | JStr s => s
  | _ => []
  end.

(** [if (useRAG) { await loadPDF(); sources = retrieveRelevantContent(userMessage); }]
    after [let sources = []]. *)
Definition ragStep (w : world) (useRAG : jsval) (userMessage : str) : M (list str) :=
  if truthy useRAG then
    _ <- emit EvLoadPDF ;;
    _ <- loadPDF w ;;
    _ <- emit (EvRetrieve userMessage) ;;
    retrieve w userMessage
  else ret [].

(** The [try] block from [getSessionMemory] on, entered once [message] has
    passed the check. *)
Definition chatBody (w : world) (userMessage : str) (useRAG sessionId mode : jsval)
  : M response :=
  memory <- getSessionMemory w sessionId ;;
  chat_history <- loadMemoryVariables memory ;;
  sources <- ragStep w useRAG userMessage ;;
  if isAgent mode then
    _ <- emit (EvAgent sessionId userMessage) ;;
    reply <- lift (agentProcess w sessionId userMessage) ;;
    ret (R200 reply [])
  else
    let messages :=
      systemMessage useRAG sources
        :: chat_history ++ [ {| msgRole := user; content := userMessage |} ] in
    _ <- emit (EvModel messages) ;;
    reply <- lift (chatInvoke w messages) ;;
    _ <- saveContext memory userMessage reply ;;
    ret (R200 reply sources).

(** [app.post("/chat", ...)]: the response sent, the state left and the
    calls made. *)
Definition chat (w : world) (req : request) (st : state)
  : response * state * list event :=
  let userMessage := message req in
  let useRAG := nullish (useRAG req) (JBool true) in
  let sessionId := orDefault (sessionId req) (JStr (lit "default")) in
  let mode := orDefault (mode req) (JStr (lit "basic")) in
  if negb (truthy userMessage) || negb (isString userMessage) then (R400, st, [])
  else
    match chatBody w (asString userMessage) useRAG sessionId mode st with
    | (Ok r, st', evs) => (r, st', evs)
    | (Throw e, st', evs) => (R500 e, st', evs)
    end.

(** Requests served one after the other, each in the world it meets. *)
Fixpoint serve (script : list (world * request)) (st : state)
  : list response * state :=
  match script with
  | [] => ([], st)
  | (w, req) :: rest =>
      let '(r, st1, _) := chat w req st in
      let '(rs, st2) := serve rest st1 in
      (r :: rs, st2)
  end.

(** ** Notions of the specification *)

(** A piece of text without white space. *)
Definition spaceless (w : str) : Prop := forallb (fun c => negb (is_space c)) w = true.

(** A world for the examples: no handbook file, a chat model that answers
    with the text of the last message, an agent that answers with the
    message, and an engine that rejects what the fragment leaves out. *)
Definition echoWorld : world :=
  {| pdfFile := None;
     chatInvoke := fun messages => Ok (content (last messages {| msgRole := user; content := [] |}));
     agentProcess := fun _ text => Ok text;
     ToString := fun _ => Some (lit "[object Object]");
     regexpBeyond := fun _ _ => Throw SyntaxError |}.

Definition withFile (file : option (res str)) (w : world) : world :=
  {| pdfFile := file;
     chatInvoke := chatInvoke w;
     agentProcess := agentProcess w;
     ToString := ToString w;
     regexpBeyond := regexpBeyond w |}.

(** The characters with a meaning of their own in a pattern. *)
Definition is_special (c : ascii) : bool :=
  is_quantifier c || is_beyond c
  || (code c =? 124) || (code c =? 94) || (code c =? 36).

Definition plain (t : str) : Prop := forallb (fun c => negb (is_special c)) t = true.

(** The token as a literal: does it stand at the head of [s], case apart. *)
Fixpoint literalPrefix (tok s : str) : bool :=
  match tok, s with
  | [], _ => true
  | c :: tok', x :: s' => sameChar c x && literalPrefix tok' s'
  | _ :: _, [] => false
  end.

(** The occurrences of the literal token in [s], counted from left to right
    without overlap, as a global scan does: after an occurrence the scan
    resumes at its end, one further on when the token is empty. *)
Fixpoint countLiteral (tok : str) (skip : nat) (s : str) : nat :=
  match s with
  | [] =>
      match skip with
      | 0 => if literalPrefix tok [] then 1 else 0
      | S _ => 0
      end
  | _ :: s' =>
      match skip with
      | S k => countLiteral tok k s'
      | 0 =>
          if literalPrefix tok s
          then S (countLiteral tok (pred (length tok)) s')
          else countLiteral tok 0 s'
      end
  end.

(** The score as the specification words it: the sum over the terms of the
    literal occurrences in the lower-cased chunk. *)
Definition literalScore (terms : list str) (c : str) : nat :=
  fold_right (fun t n => countLiteral t 0 (toLowerCase c) + n) 0 terms.

Definition positive (item : scoredChunk) : bool := 0 <? score item.

(** [ranked] is the stable ordering of [items] by score, highest first: the
    same items, no score followed by a higher one, and the items of any one
    score in the order they have in [items]. *)
Definition stablyRanked (items ranked : list scoredChunk) : Prop :=
  Permutation ranked items
  /\ StronglySorted (fun a b => score b <= score a) ranked
  /\ forall k, filter (fun i => score i =? k) ranked
               = filter (fun i => score i =? k) items.

Definition sampleChunks : list str :=
  [lit "policy b"; lit "vacation policy"; lit "policy a"; lit "unrelated";
   lit "policy c"].

(** The key under which a request finds its session memory, when its
    session id makes one. *)
Definition sessionKey (w : world) (req : request) : option str :=
  propertyKey w (orDefault (sessionId req) (JStr (lit "default"))).

Definition agentMode (req : request) : bool :=
  isAgent (orDefault (mode req) (JStr (lit "basic"))).

(** The turn that a request answered by [r] adds to the history kept under
    [key]: the pair of the user message and the reply when the request was
    answered by the chat model for that session, nothing otherwise. *)
Definition turnOf (key : str) (w : world) (req : request) (r : response)
  : list chatMessage :=
  match r with
  | R200 reply _ =>
      if agentMode req then []
      else
        match sessionKey w req with
        | Some k =>
            if str_eqb key k then
              [ {| msgRole := user; content := asString (message req) |};
                {| msgRole := assistant; content := reply |} ]
            else []
        | None => []
        end
  | _ => []
  end.

Fixpoint turnsOf (key : str) (script : list (world * request))
    (rs : list response) : list chatMessage :=
  match script, rs with
  | (w, req) :: script', r :: rs' => turnOf key w req r ++ turnsOf key script' rs'
  | _, _ => []
  end.

(** The state in which the memory of [key] exists. *)
Definition withSession (key : str) (st : state) : state :=
  match sessionMemories st key with
  | Some _ => st
  | None => setMemory key [] st
  end.

Definition isModelCall (e : event) : bool :=
  match e with
  | EvModel _ => true
  | _ => false
  end.

Definition agentRequest (text : str) : request :=
  {| message := JStr text; useRAG := JUndefined; sessionId := JUndefined;
     mode := JStr (lit "agent") |}.

Definition basicRequest (text : str) : request :=
  {| message := JStr text; useRAG := JUndefined; sessionId := JUndefined;
     mode := JUndefined |}.

(** Every piece but the last is not empty. *)
Fixpoint innerNonempty (l : list str) : bool :=
  match l with
  | [] => true
  | [_] => true
  | x :: rest => nonempty x && innerNonempty rest
  end.

(** The room the pieces take when each is charged one separator. *)
Definition weight (words : list str) : nat :=
  list_sum (map (fun w => S (length w)) words).

(** A character that a query term can hold: in lower case, no white space
    and none of the stripped punctuation. *)
Definition termChar (c : ascii) : bool :=
  negb (is_punct c) && negb (is_space c) && Ascii.eqb (lowerChar c) c.

(** A call to a collaborator, agent or chat model. *)
Definition isCall (e : event) : bool :=
  match e with
  | EvAgent _ _ | EvModel _ => true
  | _ => false
  end.

(** A history made of whole turns: a user message, then the reply. *)
Definition wholeTurns (h : list chatMessage) : Prop :=
  exists turns : list (str * str),
    h = flat_map (fun ua => [ {| msgRole := user; content := fst ua |};
                              {| msgRole := assistant; content := snd ua |} ])
                 turns.

(** The chunk list is the chunking of the text that is loaded. *)
Definition chunksOfText (st : state) : Prop :=
  match pdfText st with
  | None => pdfChunks st = []
  | Some text => pdfChunks st = chunkText text
  end.

(** What the handler guarantees of each call it records. *)
Definition callAsIntended (w : world) (req : request) (st : state) (e : event)
  : Prop :=
  match e with
  | EvModel messages =>
      agentMode req = false
      /\ exists sys key,
           sessionKey w req = Some key
           /\ msgRole sys = system
           /\ messages
              = sys :: history st key
                  ++ [ {| msgRole := user; content := asString (message req) |} ]
  | EvAgent sid text =>
      agentMode req = true
      /\ sid = orDefault (sessionId req) (JStr (lit "default"))
      /\ text = asString (message req)
  | _ => True
  end.

(** A world in which no value that is not a string makes a property key. *)
Definition noKeyWorld : world :=
  {| pdfFile := pdfFile echoWorld;
     chatInvoke := chatInvoke echoWorld;
     agentProcess := agentProcess echoWorld;
     ToString := fun _ => None;
     regexpBeyond := regexpBeyond echoWorld |}.

(** * Properties *)

Unset Implicit Arguments.

(** ** The model on small inputs *)

Example split_ws_edges :
  split_ws (lit " a  b ") = [lit ""; lit "a"; lit "b"; lit ""]
  /\ split_ws (lit "") = [lit ""]
  /\ tokens (lit " a  b ") = [lit "a"; lit "b"].
Proof. repeat split; reflexivity. Qed.

Example chunkText_trailing_space :
  chunkText (lit "  hello   world  ") = [lit "hello world "].
Proof. reflexivity. Qed.

Example parsePattern_samples :
  parsePattern (lit "ab*c|d$")
  = Parsed [[TChar "a"; TStar "b"; TChar "c"]; [TChar "d"; TEol]]
  /\ parsePattern (lit "a**") = Invalid
  /\ parsePattern (lit "[a-z]") = Beyond.
Proof. repeat split; reflexivity. Qed.

Example regexpMatchCount_samples (beyond : str -> str -> res nat) :
  regexpMatchCount beyond (lit "aa") (lit "aaaaa") = Ok 2
  /\ regexpMatchCount beyond (lit "a*") (lit "baaac") = Ok 4
  /\ regexpMatchCount beyond (lit "plan") (lit "planning a plan") = Ok 2.
Proof. repeat split; reflexivity. Qed.

Example vacation_policy_query (beyond : str -> str -> res nat) :
  queryTerms (lit "What is the vacation policy?")
  = [lit "what"; lit "vacation"; lit "policy"]
  /\ scoreChunk beyond (queryTerms (lit "What is the vacation policy?"))
        (lit "Vacation policy: employees accrue 2 days/month.")
     = Ok {| chunk := lit "Vacation policy: employees accrue 2 days/month.";
             score := 2 |}.
Proof. split; reflexivity. Qed.

(** ** Splitting and tokens *)

Lemma split_ws_cons (s : str) : exists w ws, split_ws s = w :: ws.
Proof.
  induction s as [|c s IH]; simpl.
  - now exists [], [].
  - destruct IH as (w & ws & E). rewrite E.
    destruct (is_space c).
    + destruct (starts_with_space s); [now exists w, ws | now exists [], (w :: ws)].
    + now exists (c :: w), ws.
Qed.

Lemma split_ws_space_head (c : ascii) (s : str) :
  is_space c = true -> exists ws, split_ws (c :: s) = [] :: ws.
Proof.
  revert c. induction s as [|d s IH]; intros c Hc.
  - simpl. rewrite Hc. simpl. now exists [[]].
  - change (split_ws (c :: d :: s))
      with (if is_space c
            then if is_space d then split_ws (d :: s) else [] :: split_ws (d :: s)
            else match split_ws (d :: s) with
                 | w :: ws => (c :: w) :: ws
                 | [] => [[c]]
                 end).
    rewrite Hc. destruct (is_space d) eqn:Hd.
    + now apply IH.
    + now exists (split_ws (d :: s)).
Qed.

Lemma tokens_space (c : ascii) (s : str) :
  is_space c = true -> tokens (c :: s) = tokens s.
Proof.
  intros Hc. unfold tokens. simpl. rewrite Hc.
  now destruct (starts_with_space s).
Qed.

(** A space after [x] closes the piece that [x] ends with: the first piece
    is the one of [x], and the later pieces that are not empty are those of
    [x] followed by those of [y]. *)
Lemma split_ws_app_space (c : ascii) (x y : str) :
  is_space c = true ->
  hd [] (split_ws (x ++ c :: y)) = hd [] (split_ws x)
  /\ filter nonempty (tl (split_ws (x ++ c :: y)))
     = filter nonempty (tl (split_ws x)) ++ tokens y.
Proof.
  intros Hc. induction x as [|a x [IHh IHt]].
  - destruct (split_ws_space_head c y Hc) as (ws & E).
    pose proof (tokens_space c y Hc) as T. unfold tokens in T at 1.
    simpl app. rewrite E in *. simpl in *. now split.
  - destruct (is_space a) eqn:Ha.
    + destruct (split_ws_space_head a (x ++ c :: y) Ha) as (ws & E).
      destruct (split_ws_space_head a x Ha) as (ws' & E').
      pose proof (tokens_space a (x ++ c :: y) Ha) as T.
      pose proof (tokens_space a x Ha) as T'.
      unfold tokens in T at 1. unfold tokens in T' at 1.
      rewrite E in T. rewrite E' in T'. simpl in T, T'.
      change ((a :: x) ++ c :: y) with (a :: x ++ c :: y).
      rewrite E, E'. cbn [hd tl].
      split; [reflexivity|].
      rewrite T, T'. unfold tokens.
      destruct (split_ws_cons (x ++ c :: y)) as (w1 & ws1 & E1).
      destruct (split_ws_cons x) as (w2 & ws2 & E2).
      rewrite E1, E2 in *. simpl in IHh, IHt. subst w2.
      simpl. destruct (nonempty w1); simpl; now rewrite IHt.
    + simpl. rewrite Ha.
      destruct (split_ws_cons (x ++ c :: y)) as (w1 & ws1 & E1).
      destruct (split_ws_cons x) as (w2 & ws2 & E2).
      rewrite E1, E2 in *. simpl in *. now subst.
Qed.

Lemma tokens_split (s : str) :
  tokens s
  = (if nonempty (hd [] (split_ws s)) then [hd [] (split_ws s)] else [])
    ++ filter nonempty (tl (split_ws s)).
Proof.
  unfold tokens. destruct (split_ws_cons s) as (w & ws & E). rewrite E. simpl.
  now destruct (nonempty w).
Qed.

Lemma tokens_app_space (c : ascii) (x y : str) :
  is_space c = true -> tokens (x ++ c :: y) = tokens x ++ tokens y.
Proof.
  intros Hc. destruct (split_ws_app_space c x y Hc) as [Hh Ht].
  rewrite (tokens_split (x ++ c :: y)), (tokens_split x), Hh, Ht.
  now rewrite app_assoc.
Qed.

Lemma split_ws_spaceless (s : str) : Forall spaceless (split_ws s).
Proof.
  induction s as [|c s IH]; simpl.
  - repeat constructor.
  - destruct (is_space c) eqn:Hc.
    + destruct (starts_with_space s); [assumption|].
      constructor; [reflexivity | assumption].
    + destruct (split_ws s) as [|w ws].
      * repeat constructor. unfold spaceless. simpl. now rewrite Hc.
      * inversion IH; subst. constructor; [|assumption].
        unfold spaceless in *. simpl. now rewrite Hc.
Qed.

Lemma split_ws_word (w : str) : spaceless w -> split_ws w = [w].
Proof.
  unfold spaceless. induction w as [|c w IH]; simpl; [reflexivity|].
  intros H. apply andb_true_iff in H as [Hc Hw].
  apply negb_true_iff in Hc. rewrite Hc, (IH Hw). reflexivity.
Qed.

Lemma tokens_word (w : str) :
  spaceless w -> tokens w = if nonempty w then [w] else [].
Proof.
  intros H. unfold tokens. rewrite (split_ws_word w H). reflexivity.
Qed.

(** ** Chunking *)

Lemma chunkWords_bounded (all : list str) (words : list str) :
  forall cur,
    length cur <= CHUNK_SIZE \/ (CHUNK_SIZE < length cur /\ In cur all) ->
    incl words all ->
    Forall (fun c => length c <= CHUNK_SIZE \/ (CHUNK_SIZE < length c /\ In c all))
           (chunkWords cur words).
Proof.
  induction words as [|word rest IH]; intros cur Hcur Hin; simpl.
  - destruct (nonempty cur); constructor; auto.
  - destruct (length (cur ++ SP :: word) <=? CHUNK_SIZE) eqn:E.
    + apply IH.
      * left. apply Nat.leb_le in E. rewrite length_app in E. simpl in E.
        destruct cur; simpl in *; rewrite ?length_app; simpl; lia.
      * intros x Hx. apply Hin. now right.
    + constructor; [exact Hcur|]. apply IH.
      * destruct (le_gt_dec (length word) CHUNK_SIZE) as [L|G]; [now left|].
        right. split; [exact G | apply Hin; now left].
      * intros x Hx. apply Hin. now right.
Qed.

Lemma chunkWords_oversized_current (rest : list str) (cur : str) :
  CHUNK_SIZE < length cur -> In cur (chunkWords cur rest).
Proof.
  intros G. destruct rest as [|r rest]; simpl.
  - destruct cur; [simpl in G; lia | now left].
  - assert (E : (length (cur ++ SP :: r) <=? CHUNK_SIZE) = false).
    { apply Nat.leb_gt. rewrite length_app. simpl. lia. }
    rewrite E. now left.
Qed.

Lemma chunkWords_oversized (w : str) (words : list str) :
  forall cur,
    In w words -> CHUNK_SIZE < length w -> In w (chunkWords cur words).
Proof.
  induction words as [|word rest IH]; intros cur Hin G; [contradiction|].
  simpl. destruct Hin as [-> | Hin].
  - assert (E : (length (cur ++ SP :: w) <=? CHUNK_SIZE) = false).
    { apply Nat.leb_gt. rewrite length_app. simpl. lia. }
    rewrite E. right. now apply chunkWords_oversized_current.
  - destruct (length (cur ++ SP :: word) <=? CHUNK_SIZE).
    + now apply IH.
    + right. now apply IH.
Qed.

Lemma loadPDF_fresh (w : world) (st : state) (text : str) :
  pdfFile w = Some (Ok text) -> pdfText st = None ->
  loadPDF w st
  = (Ok text,
     {| sessionMemories := sessionMemories st;
        pdfText := Some text;
        pdfChunks := pdfChunks st ++ chunkText text |},
     []).
Proof. intros F T. unfold loadPDF. now rewrite T, F. Qed.

(** C1: every chunk that [loadPDF] makes of a document text has at most
    CHUNK_SIZE (800) characters, or is by itself one white-space delimited
    word of the text that is longer; and every such longer word is a chunk
    of its own. *)
Theorem loadPDF_chunk_size (w : world) (st : state) (text : str) :
  pdfFile w = Some (Ok text) -> pdfText st = None ->
  exists st',
    loadPDF w st = (Ok text, st', [])
    /\ pdfChunks st' = pdfChunks st ++ chunkText text
    /\ Forall (fun c => length c <= 800
                        \/ (800 < length c /\ In c (split_ws text)))
              (chunkText text)
    /\ (forall word, In word (split_ws text) -> 800 < length word ->
                     In word (chunkText text)).
Proof.
  intros F T. eexists. split; [now apply loadPDF_fresh|].
  split; [reflexivity|]. split.
  - apply (chunkWords_bounded (split_ws text)).
    + left. simpl. unfold CHUNK_SIZE. lia.
    + apply incl_refl.
  - intros word Hin G. now apply chunkWords_oversized.
Qed.

Lemma loadPDF_chunk_size_witness :
  exists st',
    loadPDF (withFile (Some (Ok (lit "Vacation policy"))) echoWorld) initialState
    = (Ok (lit "Vacation policy"), st', [])
    /\ pdfChunks st' = [lit "Vacation policy"].
Proof.
  destruct (loadPDF_chunk_size
              (withFile (Some (Ok (lit "Vacation policy"))) echoWorld)
              initialState (lit "Vacation policy") eq_refl eq_refl)
    as (st' & E & C & _).
  exists st'. split; [exact E | exact C].
Defined.

Lemma tokens_join_cons (c : str) (l : list str) :
  tokens (join [SP] (c :: l)) = tokens c ++ tokens (join [SP] l).
Proof.
  destruct l as [|d l].
  - simpl. now rewrite app_nil_r.
  - change (join [SP] (c :: d :: l)) with (c ++ SP :: join [SP] (d :: l)).
    now apply tokens_app_space.
Qed.

Lemma chunkWords_tokens (words : list str) :
  Forall spaceless words ->
  forall cur,
    tokens (join [SP] (chunkWords cur words)) = tokens cur ++ filter nonempty words.
Proof.
  induction 1 as [|word rest Hw _ IH]; intros cur.
  - rewrite app_nil_r. now destruct cur as [|c cur].
  - change (chunkWords cur (word :: rest))
      with (if length (cur ++ SP :: word) <=? CHUNK_SIZE
            then chunkWords (cur ++ (if nonempty cur then [SP] else []) ++ word) rest
            else cur :: chunkWords word rest).
    destruct (length (cur ++ SP :: word) <=? CHUNK_SIZE).
    + rewrite IH. destruct cur as [|c cur].
      * simpl app at 1. rewrite (tokens_word word Hw). simpl.
        now destruct (nonempty word).
      * change ((c :: cur) ++ (if nonempty (c :: cur) then [SP] else []) ++ word)
          with ((c :: cur) ++ SP :: word).
        rewrite (tokens_app_space SP (c :: cur) word eq_refl).
        rewrite (tokens_word word Hw), <- app_assoc. simpl.
        now destruct (nonempty word).
    + rewrite tokens_join_cons, IH, (tokens_word word Hw). simpl.
      now destruct (nonempty word).
Qed.

(** C2: the chunks that [loadPDF] makes of a document text, put together
    again with one space between consecutive chunks, have the white-space
    delimited tokens of the text, in the same order. *)
Theorem loadPDF_chunks_keep_tokens (w : world) (st : state) (text : str) :
  pdfFile w = Some (Ok text) -> pdfText st = None -> pdfChunks st = [] ->
  exists st',
    loadPDF w st = (Ok text, st', [])
    /\ tokens (join [SP] (pdfChunks st')) = tokens text.
Proof.
  intros F T C. eexists. split; [now apply loadPDF_fresh|].
  simpl. rewrite C. simpl. unfold chunkText.
  rewrite (chunkWords_tokens (split_ws text) (split_ws_spaceless text) []).
  reflexivity.
Qed.

Lemma loadPDF_chunks_keep_tokens_witness :
  exists st',
    loadPDF (withFile (Some (Ok (lit " annual  leave "))) echoWorld) initialState
    = (Ok (lit " annual  leave "), st', [])
    /\ tokens (join [SP] (pdfChunks st')) = [lit "annual"; lit "leave"].
Proof.
  exact (loadPDF_chunks_keep_tokens
           (withFile (Some (Ok (lit " annual  leave "))) echoWorld)
           initialState (lit " annual  leave ") eq_refl eq_refl eq_refl).
Defined.

(** ** Lower case *)

Lemma is_space_lowerChar (c : ascii) : is_space (lowerChar c) = is_space c.
Proof. destruct c as [[] [] [] [] [] [] [] []]; reflexivity. Qed.

Lemma split_ws_toLowerCase (s : str) :
  split_ws (toLowerCase s) = map toLowerCase (split_ws s).
Proof.
  induction s as [|c s IH]; [reflexivity|].
  simpl. rewrite is_space_lowerChar, IH.
  assert (H : starts_with_space (toLowerCase s) = starts_with_space s).
  { destruct s; [reflexivity | apply is_space_lowerChar]. }
  rewrite H. destruct (is_space c).
  - now destruct (starts_with_space s).
  - now destruct (split_ws s).
Qed.

Lemma length_toLowerCase (s : str) : length (toLowerCase s) = length s.
Proof. apply length_map. Qed.

(** ** Short queries *)

Lemma filter_long_none (pieces : list str) :
  Forall (fun t => length t <= 3) (filter nonempty pieces) ->
  filter (fun t => 3 <? length t) pieces = [].
Proof.
  induction pieces as [|t ts IH]; intros H; [reflexivity|].
  destruct t as [|c t]; simpl in *; [now apply IH|].
  inversion H; subst.
  assert (E : (3 <? S (length t)) = false) by now apply Nat.ltb_ge.
  rewrite E. now apply IH.
Qed.

(** The length filter sees the pieces of the lower-cased query. *)
Lemma queryTerms_short_lowered (query : str) :
  Forall (fun t => length t <= 3) (tokens (toLowerCase query)) ->
  queryTerms query = [].
Proof.
  intros H. unfold queryTerms.
  now rewrite (filter_long_none (split_ws (toLowerCase query)) H).
Qed.

(** On Latin-1 the lower case of a token has the length of the token. *)
Lemma queryTerms_short (query : str) :
  Forall (fun t => length t <= 3) (tokens query) -> queryTerms query = [].
Proof.
  intros H. unfold queryTerms. rewrite split_ws_toLowerCase.
  unfold tokens in H. induction (split_ws query) as [|t ts IH]; [reflexivity|].
  simpl in *. rewrite length_toLowerCase.
  destruct t as [|c t].
  - simpl. now apply IH.
  - simpl nonempty in H. cbv iota in H. inversion H; subst.
    assert (E : (3 <? length (c :: t)) = false) by now apply Nat.ltb_ge.
    rewrite E. now apply IH.
Qed.

(** C5: a query whose white-space delimited tokens, taken as the function
    takes them, from the query in lower case, all have at most three
    characters retrieves nothing, whatever the chunks are. *)
Theorem short_query_retrieves_nothing
    (beyond : str -> str -> res nat) (pdfChunks : list str) (query : str) :
  Forall (fun t => length t <= 3) (tokens (toLowerCase query)) ->
  retrieveRelevantContent beyond pdfChunks query = Ok [].
Proof.
  intros H. unfold retrieveRelevantContent.
  now rewrite (queryTerms_short_lowered query H).
Qed.

Lemma short_query_retrieves_nothing_witness :
  retrieveRelevantContent (regexpBeyond echoWorld)
    [lit "Is it ok to take leave"] (lit "is it ok") = Ok [].
Proof.
  apply short_query_retrieves_nothing. repeat constructor.
Defined.

(** ** The stable sort *)

Lemma insertByScore_perm (x : scoredChunk) (l : list scoredChunk) :
  Permutation (insertByScore x l) (x :: l).
Proof.
  induction l as [|y l IH]; simpl; [apply Permutation_refl|].
  destruct (score x <? score y); [|apply Permutation_refl].
  eapply perm_trans; [apply perm_skip, IH | apply perm_swap].
Qed.

Lemma sortByScore_perm (l : list scoredChunk) : Permutation (sortByScore l) l.
Proof.
  induction l as [|x l IH]; simpl; [constructor|].
  eapply perm_trans; [apply insertByScore_perm | now apply perm_skip].
Qed.

Lemma insertByScore_sorted (x : scoredChunk) (l : list scoredChunk) :
  StronglySorted (fun a b => score b <= score a) l ->
  StronglySorted (fun a b => score b <= score a) (insertByScore x l).
Proof.
  induction 1 as [|y l Hs IH Hy]; simpl.
  - repeat constructor.
  - destruct (score x <? score y) eqn:E.
    + apply Nat.ltb_lt in E. constructor; [exact IH|].
      eapply Permutation_Forall;
        [apply Permutation_sym, insertByScore_perm|].
      constructor; [lia | exact Hy].
    + apply Nat.ltb_ge in E. constructor.
      * now constructor.
      * constructor; [exact E|].
        eapply Forall_impl; [|exact Hy]. simpl. intros; lia.
Qed.

Lemma sortByScore_sorted (l : list scoredChunk) :
  StronglySorted (fun a b => score b <= score a) (sortByScore l).
Proof.
  induction l as [|x l IH]; simpl; [constructor | now apply insertByScore_sorted].
Qed.

(** An item is carried past higher scores only, so the items of one score
    keep their order. *)
Lemma insertByScore_stable (k : nat) (x : scoredChunk) (l : list scoredChunk) :
  filter (fun i => score i =? k) (insertByScore x l)
  = filter (fun i => score i =? k) (x :: l).
Proof.
  induction l as [|y l IH]; [reflexivity|].
  simpl insertByScore. destruct (score x <? score y) eqn:E; [|reflexivity].
  apply Nat.ltb_lt in E.
  change (filter (fun i => score i =? k) (y :: insertByScore x l))
    with (if score y =? k
          then y :: filter (fun i => score i =? k) (insertByScore x l)
          else filter (fun i => score i =? k) (insertByScore x l)).
  rewrite IH. simpl.
  destruct (score x =? k) eqn:Ex, (score y =? k) eqn:Ey; try reflexivity.
  apply Nat.eqb_eq in Ex, Ey. lia.
Qed.

Lemma sortByScore_stable (k : nat) (l : list scoredChunk) :
  filter (fun i => score i =? k) (sortByScore l)
  = filter (fun i => score i =? k) l.
Proof.
  induction l as [|x l IH]; [reflexivity|].
  simpl sortByScore. rewrite insertByScore_stable. simpl. now rewrite IH.
Qed.

Lemma sortByScore_ranked (l : list scoredChunk) : stablyRanked l (sortByScore l).
Proof.
  repeat split.
  - apply sortByScore_perm.
  - apply sortByScore_sorted.
  - intros k. apply sortByScore_stable.
Qed.

(** Two descending lists with the same items of each score, in the same
    order, are the same list. *)
Lemma ranked_unique (l1 : list scoredChunk) :
  forall l2,
    StronglySorted (fun a b => score b <= score a) l1 ->
    StronglySorted (fun a b => score b <= score a) l2 ->
    (forall k, filter (fun i => score i =? k) l1
               = filter (fun i => score i =? k) l2) ->
    l1 = l2.
Proof.
  induction l1 as [|x l1 IH]; intros l2 S1 S2 F.
  - destruct l2 as [|y l2]; [reflexivity|].
    specialize (F (score y)). simpl in F. now rewrite Nat.eqb_refl in F.
  - destruct l2 as [|y l2].
    + specialize (F (score x)). simpl in F. now rewrite Nat.eqb_refl in F.
    + inversion S1 as [|? ? S1' H1]; subst. inversion S2 as [|? ? S2' H2]; subst.
      assert (Hxy : score x = score y).
      { assert (Hy : In y (x :: l1)).
        { apply (proj1 (filter_In (fun i => score i =? score y) y (x :: l1))).
          rewrite (F (score y)). simpl. rewrite Nat.eqb_refl. now left. }
        assert (Hx : In x (y :: l2)).
        { apply (proj1 (filter_In (fun i => score i =? score x) x (y :: l2))).
          rewrite <- (F (score x)). simpl. rewrite Nat.eqb_refl. now left. }
        rewrite Forall_forall in H1, H2.
        destruct Hy as [->|Hy]; [reflexivity|].
        destruct Hx as [->|Hx]; [reflexivity|].
        specialize (H1 y Hy). specialize (H2 x Hx). lia. }
      pose proof (F (score x)) as Fx. simpl in Fx.
      rewrite Nat.eqb_refl, <- Hxy, Nat.eqb_refl in Fx.
      injection Fx as -> Fx. f_equal.
      apply IH; [assumption | assumption |].
      intros k. specialize (F k). simpl in F.
      destruct (score y =? k); [now injection F | exact F].
Qed.

Lemma stablyRanked_unique (items r1 r2 : list scoredChunk) :
  stablyRanked items r1 -> stablyRanked items r2 -> r1 = r2.
Proof.
  intros (_ & S1 & F1) (_ & S2 & F2).
  apply ranked_unique; [assumption | assumption |].
  intros k. now rewrite F1, F2.
Qed.

(** ** Scoring and ranking *)

Lemma scoreChunks_chunks (beyond : str -> str -> res nat) (terms : list str)
    (chunks : list str) :
  forall items, scoreChunks beyond terms chunks = Ok items -> map chunk items = chunks.
Proof.
  induction chunks as [|c chunks IH]; intros items H; simpl in H.
  - now injection H as <-.
  - unfold scoreChunk in H.
    destruct (scoreTerms beyond (toLowerCase c) terms 0); [|discriminate].
    destruct (scoreChunks beyond terms chunks) as [rest|]; [|discriminate].
    injection H as <-. simpl. now rewrite (IH rest eq_refl).
Qed.

Lemma scoreChunks_no_terms (beyond : str -> str -> res nat) (chunks : list str) :
  forall items,
    scoreChunks beyond [] chunks = Ok items -> filter positive items = [].
Proof.
  induction chunks as [|c chunks IH]; intros items H; simpl in H.
  - now injection H as <-.
  - destruct (scoreChunks beyond [] chunks) as [rest|]; [|discriminate].
    injection H as <-. simpl. now apply IH.
Qed.

(** C4: when the chunks have been scored, [retrieveRelevantContent] returns
    the chunks of positive score ordered by score, highest first, chunks of
    equal score in document order, cut after the third; that ordering is
    the only one there is. *)
Theorem retrieve_ranking
    (beyond : str -> str -> res nat) (pdfChunks : list str) (query : str)
    (items : list scoredChunk) :
  scoreChunks beyond (queryTerms query) pdfChunks = Ok items ->
  map chunk items = pdfChunks
  /\ (exists ranked, stablyRanked (filter positive items) ranked)
  /\ (forall ranked,
        stablyRanked (filter positive items) ranked ->
        retrieveRelevantContent beyond pdfChunks query
        = Ok (map chunk (firstn 3 ranked)))
  /\ (forall found,
        retrieveRelevantContent beyond pdfChunks query = Ok found ->
        length found <= 3).
Proof.
  intros H.
  assert (R : retrieveRelevantContent beyond pdfChunks query
              = Ok (topChunks items)).
  { unfold retrieveRelevantContent. destruct (queryTerms query) eqn:T.
    - unfold topChunks. fold positive.
      now rewrite (scoreChunks_no_terms beyond pdfChunks items H).
    - now rewrite H. }
  split; [now apply (scoreChunks_chunks beyond (queryTerms query))|].
  split; [eexists; apply sortByScore_ranked|].
  split.
  - intros ranked Hr. rewrite R. unfold topChunks. fold positive.
    now rewrite (stablyRanked_unique _ _ _ Hr (sortByScore_ranked _)).
  - intros found E. rewrite R in E. injection E as <-.
    unfold topChunks. rewrite length_map. apply firstn_le_length.
Qed.

Lemma retrieve_ranking_witness :
  retrieveRelevantContent (regexpBeyond echoWorld) sampleChunks
    (lit "Vacation policy?")
  = Ok [lit "vacation policy"; lit "policy b"; lit "policy a"].
Proof.
  destruct (retrieve_ranking (regexpBeyond echoWorld) sampleChunks
              (lit "Vacation policy?")
              (match scoreChunks (regexpBeyond echoWorld)
                       (queryTerms (lit "Vacation policy?")) sampleChunks with
               | Ok items => items
               | Throw _ => []
               end)
              eq_refl)
    as (_ & _ & R & _).
  exact (R _ (sortByScore_ranked _)).
Defined.

(** ** Terms read as patterns *)

Lemma countFrom_empty_pattern (s : str) :
  forall atStart, countFrom [[]] 0 atStart s = S (length s).
Proof.
  induction s as [|c s IH]; intros atStart; [reflexivity|].
  simpl. now rewrite IH.
Qed.

Lemma scoreChunks_empty_term (beyond : str -> str -> res nat) (chunks : list str) :
  scoreChunks beyond [[]] chunks
  = Ok (map (fun c => {| chunk := c; score := length c + 1 |}) chunks).
Proof.
  induction chunks as [|c chunks IH]; [reflexivity|].
  simpl. rewrite IH. unfold scoreChunk, scoreTerms, regexpMatchCount.
  simpl parsePattern. cbv iota. unfold matchCount.
  rewrite countFrom_empty_pattern, length_toLowerCase.
  now rewrite Nat.add_1_r.
Qed.

(** C10: the query [....] has one term, which passes the length filter and
    is stripped to the empty string; as a pattern it matches at every index
    of every chunk, so each chunk scores its length plus one and the first
    three of the ranking are returned, as many as there are chunks. *)
Theorem empty_term_matches_everywhere
    (beyond : str -> str -> res nat) (pdfChunks : list str) :
  filter (fun t => 3 <? length t) (split_ws (toLowerCase (lit "....")))
  = [lit "...."]
  /\ queryTerms (lit "....") = [[]]
  /\ scoreChunks beyond (queryTerms (lit "....")) pdfChunks
     = Ok (map (fun c => {| chunk := c; score := length c + 1 |}) pdfChunks)
  /\ exists found,
       retrieveRelevantContent beyond pdfChunks (lit "....") = Ok found
       /\ length found = Nat.min 3 (length pdfChunks).
Proof.
  split; [reflexivity|]. split; [reflexivity|].
  change (queryTerms (lit "....")) with [@nil ascii].
  split; [apply scoreChunks_empty_term|].
  unfold retrieveRelevantContent.
  change (queryTerms (lit "....")) with [@nil ascii].
  rewrite scoreChunks_empty_term. eexists. split; [reflexivity|].
  unfold topChunks. rewrite length_map, length_firstn.
  rewrite (Permutation_length (sortByScore_perm _)).
  f_equal. induction pdfChunks as [|c chunks IH]; [reflexivity|].
  simpl. rewrite Nat.add_1_r. simpl. now rewrite IH.
Qed.

Lemma parseFrom_plain (s : str) :
  forall prev,
    plain s ->
    parseFrom prev s
    = Parsed [match prev with Some c => TChar c :: map TChar s | None => map TChar s end].
Proof.
  unfold plain. induction s as [|c s IH]; intros prev H.
  - now destruct prev.
  - simpl in H. apply andb_true_iff in H as [Hc Hs].
    apply negb_true_iff in Hc. unfold is_special in Hc.
    apply orb_false_iff in Hc as [Hc H36].
    apply orb_false_iff in Hc as [Hc H94].
    apply orb_false_iff in Hc as [Hc H124].
    apply orb_false_iff in Hc as [Hq Hb].
    simpl. rewrite Hq, Hb, H124, H94, H36.
    rewrite (IH (Some c) Hs). now destruct prev.
Qed.

Lemma matchTerms_plain (t : str) :
  forall atStart s,
    matchTerms (map TChar t) atStart s
    = if literalPrefix t s then Some (length t) else None.
Proof.
  induction t as [|c t IH]; intros atStart s; [reflexivity|].
  simpl. destruct s as [|x s]; [reflexivity|].
  destruct (sameChar c x); [|reflexivity].
  rewrite IH. simpl. now destruct (literalPrefix t s).
Qed.

Lemma countFrom_plain (t s : str) :
  forall skip atStart,
    countFrom [map TChar t] skip atStart s = countLiteral t skip s.
Proof.
  induction s as [|x s IH]; intros skip atStart.
  - simpl. destruct skip; [|reflexivity]. rewrite matchTerms_plain.
    now destruct (literalPrefix t []).
  - simpl countFrom. simpl countLiteral. destruct skip; [|apply IH].
    rewrite matchTerms_plain. destruct (literalPrefix t (x :: s)); rewrite IH; reflexivity.
Qed.

Lemma regexpMatchCount_plain (beyond : str -> str -> res nat) (t subject : str) :
  plain t -> regexpMatchCount beyond t subject = Ok (countLiteral t 0 subject).
Proof.
  intros H. unfold regexpMatchCount, parsePattern.
  rewrite (parseFrom_plain t None H). unfold matchCount.
  now rewrite countFrom_plain.
Qed.

Lemma scoreTerms_plain (beyond : str -> str -> res nat) (chunkLower : str)
    (terms : list str) :
  Forall plain terms ->
  forall acc,
    scoreTerms beyond chunkLower terms acc
    = Ok (acc + fold_right (fun t n => countLiteral t 0 chunkLower + n) 0 terms).
Proof.
  induction 1 as [|t terms Ht _ IH]; intros acc; simpl.
  - now rewrite Nat.add_0_r.
  - rewrite (regexpMatchCount_plain beyond t chunkLower Ht), IH.
    f_equal. lia.
Qed.

(** On terms without a character that is special in a pattern, the score is
    the sum of the literal occurrences. *)
Lemma scoreChunk_plain_terms (beyond : str -> str -> res nat)
    (terms : list str) (c : str) :
  Forall plain terms ->
  scoreChunk beyond terms c = Ok {| chunk := c; score := literalScore terms c |}.
Proof.
  intros H. unfold scoreChunk.
  now rewrite (scoreTerms_plain beyond (toLowerCase c) terms H 0).
Qed.

(** Scoring returns on every chunk list when the terms are plain. *)
Lemma scoreChunks_plain_terms (beyond : str -> str -> res nat)
    (terms : list str) (chunks : list str) :
  Forall plain terms ->
  scoreChunks beyond terms chunks
  = Ok (map (fun c => {| chunk := c; score := literalScore terms c |}) chunks).
Proof.
  intros H. induction chunks as [|c chunks IH]; [reflexivity|].
  simpl. now rewrite (scoreChunk_plain_terms beyond terms c H), IH.
Qed.

(** C3: the score is the sum of the literal occurrences of the terms only
    while no term has a character that is special in a pattern.  The term
    [$100] is read as an end-of-input assertion before [100] and matches
    nowhere in a chunk that holds it once; the term [c++], left of the
    query [c++?], is no pattern at all and scoring throws. *)
Theorem special_term_is_not_literal (beyond : str -> str -> res nat) :
  (queryTerms (lit "$100") = [lit "$100"]
   /\ scoreChunk beyond [lit "$100"] (lit "pay $100")
      = Ok {| chunk := lit "pay $100"; score := 0 |}
   /\ literalScore [lit "$100"] (lit "pay $100") = 1)
  /\ (queryTerms (lit "c++?") = [lit "c++"]
      /\ scoreChunk beyond [lit "c++"] (lit "C++ developer") = Throw SyntaxError
      /\ literalScore [lit "c++"] (lit "C++ developer") = 1).
Proof. repeat split; reflexivity. Qed.

(** ** Session memories *)

Lemma str_eqb_refl (a : str) : str_eqb a a = true.
Proof. induction a as [|c a IH]; simpl; [reflexivity|]. now rewrite Ascii.eqb_refl. Qed.

Lemma str_eqb_eq (a : str) : forall b, str_eqb a b = true -> a = b.
Proof.
  induction a as [|c a IH]; intros [|d b] H; try discriminate; [reflexivity|].
  simpl in H. apply andb_true_iff in H as [C H].
  apply Ascii.eqb_eq in C. subst. f_equal. now apply IH.
Qed.

Lemma history_setMemory (key k : str) (h : list chatMessage) (st : state) :
  history (setMemory key h st) k = if str_eqb k key then h else history st k.
Proof. unfold history, setMemory. simpl. now destruct (str_eqb k key). Qed.

Lemma history_withSession (key k : str) (st : state) :
  history (withSession key st) k = history st k.
Proof.
  unfold withSession. destruct (sessionMemories st key) eqn:E; [reflexivity|].
  rewrite history_setMemory. destruct (str_eqb k key) eqn:K; [|reflexivity].
  unfold history. apply str_eqb_eq in K. subst k. now rewrite E.
Qed.

Lemma getSessionMemory_own (w : world) (sid : jsval) (st : state) (key : str) :
  propertyKey w sid = Some key -> inherited key = false ->
  getSessionMemory w sid st = (Ok (Memory key), withSession key st, []).
Proof.
  intros K H. unfold getSessionMemory, withSession. rewrite K, H.
  now destruct (sessionMemories st key).
Qed.

Lemma getSessionMemory_inherited (w : world) (sid : jsval) (st : state)
    (key : str) :
  propertyKey w sid = Some key -> inherited key = true ->
  getSessionMemory w sid st = (Ok Inherited, st, []).
Proof. intros K H. unfold getSessionMemory. now rewrite K, H. Qed.

Lemma getSessionMemory_no_key (w : world) (sid : jsval) (st : state) :
  propertyKey w sid = None ->
  getSessionMemory w sid st = (Throw TypeError, st, []).
Proof. intros K. unfold getSessionMemory. now rewrite K. Qed.

Lemma loadPDF_memories (w : world) (st : state) :
  sessionMemories (snd (fst (loadPDF w st))) = sessionMemories st
  /\ snd (loadPDF w st) = [].
Proof.
  unfold loadPDF. destruct (pdfText st) as [[|c t]|];
    destruct (pdfFile w) as [[text|e]|]; now split.
Qed.

(** The retrieval step leaves the session memories alone and calls no
    model. *)
Lemma ragStep_memories (w : world) (useRAG : jsval) (text : str) (st : state) :
  sessionMemories (snd (fst (ragStep w useRAG text st))) = sessionMemories st
  /\ existsb isModelCall (snd (ragStep w useRAG text st)) = false.
Proof.
  unfold ragStep. destruct (truthy useRAG); [|now split].
  unfold bind, emit, retrieve.
  pose proof (loadPDF_memories w st) as [Hm He].
  destruct (loadPDF w st) as [[[x|e] st1] ev1]; simpl in *; subst ev1.
  - now destruct (retrieveRelevantContent (regexpBeyond w) (pdfChunks st1) text).
  - now split.
Qed.

Lemma ragStep_history (w : world) (useRAG : jsval) (text : str) (st : state)
    (key : str) :
  history (snd (fst (ragStep w useRAG text st))) key = history st key.
Proof.
  unfold history. now rewrite (proj1 (ragStep_memories w useRAG text st)).
Qed.

(** The handler once the message has passed the check and the session
    memory is the session's own. *)
Lemma chatBody_own (w : world) (text : str) (useRAG sid mode : jsval) (st : state)
    (key : str) :
  propertyKey w sid = Some key -> inherited key = false ->
  chatBody w text useRAG sid mode st
  = let st1 := withSession key st in
    match ragStep w useRAG text st1 with
    | (Throw e, st2, ev) => (Throw e, st2, ev)
    | (Ok sources, st2, ev) =>
        if isAgent mode then
          match agentProcess w sid text with
          | Ok reply => (Ok (R200 reply []), st2, ev ++ [EvAgent sid text])
          | Throw e => (Throw e, st2, ev ++ [EvAgent sid text])
          end
        else
          let messages :=
            systemMessage useRAG sources
              :: history st1 key ++ [ {| msgRole := user; content := text |} ] in
          match chatInvoke w messages with
          | Ok reply =>
              (Ok (R200 reply sources),
               setMemory key
                 (history st2 key
                    ++ [ {| msgRole := user; content := text |};
                         {| msgRole := assistant; content := reply |} ]) st2,
               ev ++ [EvModel messages])
          | Throw e => (Throw e, st2, ev ++ [EvModel messages])
          end
    end.
Proof.
  intros K H. unfold chatBody, bind at 1.
  rewrite (getSessionMemory_own w sid st key K H).
  unfold bind at 1. unfold loadMemoryVariables at 1. unfold bind at 1.
  cbv zeta. simpl app.
  destruct (ragStep w useRAG text (withSession key st))
    as [[[sources|e] st2] ev]; [|reflexivity].
  destruct (isAgent mode).
  - unfold bind, emit, lift, ret.
    destruct (agentProcess w sid text); simpl; now rewrite ?app_nil_r.
  - unfold bind, emit, lift, ret, saveContext.
    destruct (chatInvoke w _); simpl; now rewrite ?app_nil_r.
Qed.

Lemma chatBody_inherited (w : world) (text : str) (useRAG sid mode : jsval)
    (st : state) (key : str) :
  propertyKey w sid = Some key -> inherited key = true ->
  chatBody w text useRAG sid mode st = (Throw TypeError, st, []).
Proof.
  intros K H. unfold chatBody, bind at 1.
  now rewrite (getSessionMemory_inherited w sid st key K H).
Qed.

Lemma chatBody_no_key (w : world) (text : str) (useRAG sid mode : jsval)
    (st : state) :
  propertyKey w sid = None ->
  chatBody w text useRAG sid mode st = (Throw TypeError, st, []).
Proof.
  intros K. unfold chatBody, bind at 1.
  now rewrite (getSessionMemory_no_key w sid st K).
Qed.

(** ** The handler *)

(** C7: a request whose message is missing, is no string or is the empty
    string is answered 400 at once: the state is the one before, so no
    session memory was created or changed, and no call was made, neither
    retrieval nor model nor agent. *)
Theorem invalid_message_rejected (w : world) (req : request) (st : state) :
  message req = JUndefined
  \/ (forall s, message req <> JStr s)
  \/ message req = JStr [] ->
  chat w req st = (R400, st, []).
Proof.
  intros H. unfold chat.
  destruct (message req) as [| |b|n|s|]; simpl;
    rewrite ?orb_true_r; try reflexivity.
  destruct H as [H|[H|H]]; [discriminate | now elim (H s) |].
  now injection H as ->.
Qed.

Lemma invalid_message_rejected_witness :
  chat echoWorld
    {| message := JNum 42; useRAG := JUndefined; sessionId := JUndefined;
       mode := JUndefined |}
    initialState
  = (R400, initialState, []).
Proof.
  apply invalid_message_rejected. right. left. intros s. discriminate.
Defined.

Lemma chat_history_step (key : str) (w : world) (req : request) (st : state) :
  forall r st' ev,
    chat w req st = (r, st', ev) ->
    history st' key = history st key ++ turnOf key w req r.
Proof.
  intros r st' ev. unfold chat.
  destruct (negb (truthy (message req)) || negb (isString (message req))).
  { intros E. injection E as <- <- _. simpl. now rewrite app_nil_r. }
  set (sid := orDefault (sessionId req) (JStr (lit "default"))).
  destruct (propertyKey w sid) as [k|] eqn:K.
  2:{ rewrite (chatBody_no_key _ _ _ _ _ _ K).
      intros E. injection E as <- <- _. simpl. now rewrite app_nil_r. }
  destruct (inherited k) eqn:I.
  { rewrite (chatBody_inherited _ _ _ _ _ _ _ K I).
    intros E. injection E as <- <- _. simpl. now rewrite app_nil_r. }
  rewrite (chatBody_own _ _ _ _ _ _ _ K I). cbv zeta.
  pose proof (ragStep_history w (nullish (useRAG req) (JBool true))
                (asString (message req)) (withSession k st)) as R.
  destruct (ragStep w _ _ _) as [[[sources|e] st2] ev2]; simpl in R.
  2:{ intros E. injection E as <- <- _. simpl.
      now rewrite R, history_withSession, app_nil_r. }
  unfold turnOf, agentMode. fold sid.
  destruct (isAgent (orDefault (mode req) (JStr (lit "basic")))).
  - destruct (agentProcess w sid _); intros E; injection E as <- <- _;
      now rewrite R, history_withSession, app_nil_r.
  - destruct (chatInvoke w _); intros E; injection E as <- <- _.
    + rewrite history_setMemory. unfold sessionKey. fold sid. rewrite K.
      destruct (str_eqb key k) eqn:Q.
      * rewrite !R, !history_withSession.
        apply str_eqb_eq in Q. now rewrite Q.
      * now rewrite R, history_withSession, app_nil_r.
    + now rewrite R, history_withSession, app_nil_r.
Qed.

(** C8: the history of a session after any run of requests is the history
    before followed by one (user, assistant) pair for each request of that
    session that the chat model answered, in the order of the requests; a
    request that failed, was rejected or went to the agent adds nothing. *)
Theorem history_is_successful_turns (key : str) (script : list (world * request)) :
  forall st,
    history (snd (serve script st)) key
    = history st key ++ turnsOf key script (fst (serve script st)).
Proof.
  induction script as [|[w req] script IH]; intros st.
  - simpl. now rewrite app_nil_r.
  - simpl. destruct (chat w req st) as [[r st1] ev] eqn:E.
    specialize (IH st1). destruct (serve script st1) as [rs st2].
    simpl in *. rewrite IH, (chat_history_step key w req st r st1 ev E).
    now rewrite app_assoc.
Qed.

Lemma retrieve_no_chunks (beyond : str -> str -> res nat) (query : str) :
  retrieveRelevantContent beyond [] query = Ok [].
Proof. unfold retrieveRelevantContent. now destruct (queryTerms query). Qed.

Lemma valid_message_passes (text : str) :
  text <> [] -> negb (truthy (JStr text)) || negb (isString (JStr text)) = false.
Proof. intros H. destruct text; [now elim H | reflexivity]. Qed.

(** What the claim C6 says, that a valid agent request is answered by the
    agent alone, without the retrieval step, does not hold: with the
    handbook file unreadable the default retrieval step throws, the answer
    is the 500 failure and the agent is never called. *)
Lemma agent_mode_runs_retrieval :
  ~ (forall (w : world) (req : request) (st : state) (text reply : str),
        message req = JStr text -> text <> [] ->
        mode req = JStr (lit "agent") ->
        agentProcess w (orDefault (sessionId req) (JStr (lit "default"))) text
        = Ok reply ->
        exists st',
          chat w req st
          = (R200 reply [], st',
             [EvAgent (orDefault (sessionId req) (JStr (lit "default"))) text])).
Proof.
  intros H.
  destruct (H (withFile (Some (Throw (Failure (lit "corrupt file")))) echoWorld)
              (agentRequest (lit "leave")) initialState (lit "leave") (lit "leave")
              eq_refl ltac:(discriminate) eq_refl eq_refl) as (st' & E).
  vm_compute in E. discriminate E.
Qed.

Example agent_mode_loads_document :
  let '(r, st', ev) :=
    chat (withFile (Some (Ok (lit "annual leave policy"))) echoWorld)
         (agentRequest (lit "leave")) initialState in
  r = R200 (lit "leave") []
  /\ pdfChunks st' = [lit "annual leave policy"]
  /\ ev = [EvLoadPDF; EvRetrieve (lit "leave");
           EvAgent (JStr (lit "default")) (lit "leave")].
Proof. vm_compute. repeat split. Qed.

(** C6 (amended): a valid request in agent mode, whose session id makes a
    property key that names no inherited member and whose retrieval step
    (run first whenever useRAG is truthy) does not throw, is handed to the
    agent with the session id and the raw message; the answer is the
    agent's reply with no sources, whatever was retrieved, or the 500
    failure when the agent throws.  No message list is built, no model is
    called and no history changes. *)
Theorem agent_mode_delegates
    (w : world) (req : request) (st st2 : state) (text : str)
    (sources : list str) (ev : list event) (key : str) :
  message req = JStr text -> text <> [] ->
  mode req = JStr (lit "agent") ->
  sessionKey w req = Some key -> inherited key = false ->
  ragStep w (nullish (useRAG req) (JBool true)) text (withSession key st)
  = (Ok sources, st2, ev) ->
  let sid := orDefault (sessionId req) (JStr (lit "default")) in
  chat w req st
  = (match agentProcess w sid text with
     | Ok reply => R200 reply []
     | Throw e => R500 e
     end,
     st2, ev ++ [EvAgent sid text])
  /\ existsb isModelCall (ev ++ [EvAgent sid text]) = false
  /\ forall k, history st2 k = history st k.
Proof.
  intros Hm Ht Hmode Hk Hi Hr sid. unfold sessionKey in Hk. fold sid in Hk.
  pose proof (ragStep_memories w (nullish (useRAG req) (JBool true)) text
                (withSession key st)) as [Mem Ev].
  pose proof (fun k => ragStep_history w (nullish (useRAG req) (JBool true)) text
                (withSession key st) k) as Hh.
  rewrite Hr in Mem, Ev, Hh. simpl in Mem, Ev, Hh.
  split; [|split].
  - unfold chat. rewrite Hm, (valid_message_passes text Ht). fold sid.
    rewrite (chatBody_own _ _ _ _ _ _ _ Hk Hi). cbv zeta. simpl asString.
    rewrite Hr, Hmode. simpl.
    now destruct (agentProcess w sid text).
  - rewrite existsb_app, Ev. reflexivity.
  - intros k. now rewrite Hh, history_withSession.
Qed.

Lemma agent_mode_delegates_witness :
  exists st2,
    chat (withFile (Some (Ok (lit "annual leave policy"))) echoWorld)
         (agentRequest (lit "leave")) initialState
    = (R200 (lit "leave") [], st2,
       [EvLoadPDF; EvRetrieve (lit "leave");
        EvAgent (JStr (lit "default")) (lit "leave")]).
Proof.
  eexists.
  refine (proj1 (agent_mode_delegates
                   (withFile (Some (Ok (lit "annual leave policy"))) echoWorld)
                   (agentRequest (lit "leave")) initialState _ (lit "leave")
                   [lit "annual leave policy"]
                   [EvLoadPDF; EvRetrieve (lit "leave")] (lit "default")
                   eq_refl _ eq_refl eq_refl eq_refl eq_refl)).
  discriminate.
Defined.

Lemma withSession_pdf (key : str) (st : state) :
  pdfText (withSession key st) = pdfText st
  /\ pdfChunks (withSession key st) = pdfChunks st.
Proof. unfold withSession. now destruct (sessionMemories st key). Qed.

(** C9: with no handbook file and nothing loaded before, a request with
    useRAG on that the chat model answers, in a session whose id makes a
    property key that names no inherited member, succeeds: [loadPDF]
    returns its not-found text without throwing, the chunk list stays
    empty, nothing is retrieved, the model is sent the refusal prompt and
    the response has no sources. *)
Theorem missing_document_degrades
    (w : world) (req : request) (st : state) (text reply key : str) :
  pdfFile w = None -> pdfText st = None -> pdfChunks st = [] ->
  message req = JStr text -> text <> [] ->
  truthy (nullish (useRAG req) (JBool true)) = true ->
  agentMode req = false ->
  sessionKey w req = Some key -> inherited key = false ->
  let messages :=
    {| msgRole := system; content := refusalPrompt |}
      :: history st key
      ++ [ {| msgRole := user; content := text |} ] in
  chatInvoke w messages = Ok reply ->
  loadPDF w st = (Ok notFound, st, [])
  /\ retrieveRelevantContent (regexpBeyond w) (pdfChunks st) text = Ok []
  /\ exists st',
       chat w req st
       = (R200 reply [], st', [EvLoadPDF; EvRetrieve text; EvModel messages])
       /\ pdfText st' = None /\ pdfChunks st' = [].
Proof.
  intros Hf Ht Hc Hm Hne Hrag Hmode Hk Hi messages Hinv.
  split; [unfold loadPDF; now rewrite Ht, Hf|].
  split; [rewrite Hc; apply retrieve_no_chunks|].
  unfold sessionKey, agentMode in *.
  set (sid := orDefault (sessionId req) (JStr (lit "default"))) in *.
  destruct (withSession_pdf key st) as [Wt Wc].
  unfold chat. rewrite Hm, (valid_message_passes text Hne). fold sid.
  rewrite (chatBody_own _ _ _ _ _ _ _ Hk Hi). cbv zeta. simpl asString.
  unfold ragStep. rewrite Hrag.
  unfold bind, emit, retrieve, loadPDF. rewrite Wt, Ht, Hf, Wc, Hc.
  rewrite retrieve_no_chunks, Hmode. simpl app.
  unfold systemMessage. rewrite Hrag, history_withSession.
  fold messages. rewrite Hinv.
  eexists. split; [reflexivity|]. simpl. now rewrite Wt, Wc, Ht, Hc.
Qed.

Lemma missing_document_degrades_witness :
  exists st',
    chat echoWorld (basicRequest (lit "What is the vacation policy?")) initialState
    = (R200 (lit "What is the vacation policy?") [], st',
       [EvLoadPDF; EvRetrieve (lit "What is the vacation policy?");
        EvModel [ {| msgRole := system; content := refusalPrompt |};
                  {| msgRole := user;
                     content := lit "What is the vacation policy?" |} ]]).
Proof.
  destruct (missing_document_degrades echoWorld
              (basicRequest (lit "What is the vacation policy?")) initialState
              (lit "What is the vacation policy?")
              (lit "What is the vacation policy?") (lit "default")
              eq_refl eq_refl eq_refl eq_refl ltac:(discriminate)
              eq_refl eq_refl eq_refl eq_refl eq_refl)
    as (_ & _ & st' & E & _).
  exists st'. exact E.
Defined.

(** ** States without a handbook *)

Lemma ragStep_no_file (w : world) (useRAG : jsval) (text : str) (st : state) :
  pdfFile w = None -> snd (fst (ragStep w useRAG text st)) = st.
Proof.
  intros F. unfold ragStep. destruct (truthy useRAG); [|reflexivity].
  unfold bind, emit, retrieve, loadPDF. rewrite F.
  destruct (pdfText st) as [[|c t]|]; simpl;
    now destruct (retrieveRelevantContent (regexpBeyond w) (pdfChunks st) text).
Qed.

Lemma chat_no_file (w : world) (req : request) (st : state) :
  pdfFile w = None ->
  pdfText (snd (fst (chat w req st))) = pdfText st
  /\ pdfChunks (snd (fst (chat w req st))) = pdfChunks st.
Proof.
  intros F. unfold chat.
  destruct (negb (truthy (message req)) || negb (isString (message req)));
    [now split|].
  set (sid := orDefault (sessionId req) (JStr (lit "default"))).
  destruct (propertyKey w sid) as [key|] eqn:K;
    [|now rewrite (chatBody_no_key _ _ _ _ _ _ K)].
  destruct (inherited key) eqn:I.
  { now rewrite (chatBody_inherited _ _ _ _ _ _ _ K I). }
  rewrite (chatBody_own _ _ _ _ _ _ _ K I). cbv zeta.
  pose proof (ragStep_no_file w (nullish (useRAG req) (JBool true))
                (asString (message req)) (withSession key st) F) as R.
  destruct (withSession_pdf key st) as [Wt Wc].
  destruct (ragStep w _ _ _) as [[[sources|e] st2] ev2]; simpl in R; subst st2;
    [|now split].
  destruct (isAgent (orDefault (mode req) (JStr (lit "basic")))).
  - now destruct (agentProcess w sid _).
  - now destruct (chatInvoke w _).
Qed.

(** While no request meets a handbook file, nothing is loaded. *)
Lemma serve_no_file (script : list (world * request)) :
  Forall (fun wr => pdfFile (fst wr) = None) script ->
  forall st,
    pdfText (snd (serve script st)) = pdfText st
    /\ pdfChunks (snd (serve script st)) = pdfChunks st.
Proof.
  induction 1 as [|[w req] script F _ IH]; intros st; [now split|].
  simpl in F. simpl serve.
  pose proof (chat_no_file w req st F) as [Ht Hc].
  destruct (chat w req st) as [[r st1] ev]. simpl in Ht, Hc.
  specialize (IH st1). destruct (serve script st1) as [rs st2].
  simpl in *. destruct IH as [IHt IHc]. now rewrite IHt, IHc.
Qed.

(** * Further properties *)

(** ** Chunks and words *)

Lemma chunkWords_flat_tokens (words : list str) :
  Forall spaceless words ->
  forall cur,
    flat_map tokens (chunkWords cur words) = tokens cur ++ filter nonempty words.
Proof.
  induction 1 as [|word rest Hw _ IH]; intros cur.
  - rewrite app_nil_r. destruct cur as [|c cur]; [reflexivity|].
    simpl. now rewrite app_nil_r.
  - change (chunkWords cur (word :: rest))
      with (if length (cur ++ SP :: word) <=? CHUNK_SIZE
            then chunkWords (cur ++ (if nonempty cur then [SP] else []) ++ word) rest
            else cur :: chunkWords word rest).
    destruct (length (cur ++ SP :: word) <=? CHUNK_SIZE).
    + rewrite IH. destruct cur as [|c cur].
      * simpl app at 1. rewrite (tokens_word word Hw). simpl.
        now destruct (nonempty word).
      * change ((c :: cur) ++ (if nonempty (c :: cur) then [SP] else []) ++ word)
          with ((c :: cur) ++ SP :: word).
        rewrite (tokens_app_space SP (c :: cur) word eq_refl).
        rewrite (tokens_word word Hw), <- app_assoc. simpl.
        now destruct (nonempty word).
    + simpl flat_map. rewrite IH, (tokens_word word Hw). simpl.
      now destruct (nonempty word).
Qed.

(** No chunk boundary falls inside a word: the tokens of the chunks, chunk
    after chunk, are the tokens of the text. *)
Theorem chunks_hold_whole_words (text : str) :
  flat_map tokens (chunkText text) = tokens text.
Proof.
  unfold chunkText.
  now rewrite (chunkWords_flat_tokens (split_ws text) (split_ws_spaceless text) []).
Qed.

Lemma chunkWords_adjacent (words : list str) :
  forall cur,
    (forall c rest, chunkWords cur words = c :: rest -> length cur <= length c)
    /\ (forall l1 a b l2,
          chunkWords cur words = l1 ++ a :: b :: l2 ->
          CHUNK_SIZE < length a + 1 + length b).
Proof.
  induction words as [|word rest IH]; intros cur.
  - simpl. destruct (nonempty cur); split.
    + intros c r E. now injection E as <- _.
    + intros [|x [|y l1]] a b l2 E; discriminate E.
    + intros c r E. discriminate E.
    + intros [|x l1] a b l2 E; discriminate E.
  - simpl. destruct (length (cur ++ SP :: word) <=? CHUNK_SIZE) eqn:T.
    + destruct (IH (cur ++ (if nonempty cur then [SP] else []) ++ word)) as [Hh Ha].
      split; [|exact Ha].
      intros c r E. specialize (Hh c r E). rewrite length_app in Hh. lia.
    + apply Nat.leb_gt in T. rewrite length_app in T. simpl in T.
      destruct (IH word) as [Hh Ha]. split.
      * intros c r E. now injection E as <- _.
      * intros [|x l1] a b l2 E; simpl in E.
        -- injection E as <- E. specialize (Hh b l2 E). lia.
        -- injection E as _ E. now apply (Ha l1 a b l2).
Qed.

(** The packing is greedy: two chunks that follow one another never fit
    into one chunk with the space between them. *)
Theorem adjacent_chunks_do_not_fit (text : str) (l1 l2 : list str) (a b : str) :
  chunkText text = l1 ++ a :: b :: l2 ->
  800 < length a + 1 + length b.
Proof.
  intros E. exact (proj2 (chunkWords_adjacent (split_ws text) []) l1 a b l2 E).
Qed.

Lemma adjacent_chunks_do_not_fit_witness :
  800 < length (repeat "a"%char 500) + 1 + length (repeat "b"%char 500).
Proof.
  apply (adjacent_chunks_do_not_fit
           (repeat "a"%char 500 ++ SP :: repeat "b"%char 500) [] []).
  vm_compute. reflexivity.
Defined.

Lemma chunkWords_all_empty (words : list str) :
  filter nonempty words = [] -> chunkWords [] words = [].
Proof.
  induction words as [|[|c w] rest IH]; intros H; [reflexivity| |discriminate H].
  simpl in *. now apply IH.
Qed.

(** A text without a word, empty or all white space, gives no chunk, and
    any other text gives at least one. *)
Theorem no_chunks_iff_no_words (text : str) :
  chunkText text = [] <-> tokens text = [].
Proof.
  split; intros H.
  - pose proof (chunkWords_flat_tokens (split_ws text) (split_ws_spaceless text) [])
      as F.
    unfold chunkText in H. rewrite H in F. simpl in F. now symmetry.
  - now apply chunkWords_all_empty.
Qed.

Lemma split_ws_weight (s : str) : weight (split_ws s) <= S (length s).
Proof.
  unfold weight. induction s as [|c s IH]; simpl; [lia|].
  destruct (is_space c).
  - destruct (starts_with_space s); simpl; lia.
  - destruct (split_ws s) as [|w ws]; simpl in *; lia.
Qed.

Lemma chunkWords_fitting (words : list str) :
  forall cur,
    length cur + weight words <= CHUNK_SIZE ->
    length (chunkWords cur words) <= 1.
Proof.
  unfold weight. induction words as [|word rest IH]; intros cur H; simpl in *.
  - destruct (nonempty cur); simpl; lia.
  - assert (T : (length (cur ++ SP :: word) <=? CHUNK_SIZE) = true).
    { apply Nat.leb_le. rewrite length_app. simpl. lia. }
    rewrite T. apply IH. rewrite !length_app.
    destruct (nonempty cur); simpl; lia.
Qed.

(** A text of fewer than 800 characters is never cut: it gives one chunk at
    most. *)
Theorem short_text_is_one_chunk (text : str) :
  length text < 800 -> length (chunkText text) <= 1.
Proof.
  intros H. apply chunkWords_fitting. simpl.
  pose proof (split_ws_weight text). unfold CHUNK_SIZE. lia.
Qed.

Lemma short_text_is_one_chunk_witness :
  length (chunkText (lit "Vacation policy: employees accrue 2 days/month.")) <= 1.
Proof.
  apply short_text_is_one_chunk. vm_compute. repeat constructor.
Defined.

(** ** The empty chunk *)

(** The pieces of a split are not empty, the first and the last apart; the
    first is empty only before white space or in the empty text. *)
Lemma split_ws_shape (s : str) :
  innerNonempty (tl (split_ws s)) = true
  /\ (starts_with_space s = false -> s <> [] ->
      nonempty (hd [] (split_ws s)) = true).
Proof.
  induction s as [|c s [IHt IHh]]; [split; [reflexivity | intros _ H; now elim H]|].
  simpl split_ws. destruct (is_space c) eqn:Hc.
  - split; [|simpl; intros H; congruence].
    destruct (starts_with_space s) eqn:Hs; [exact IHt|].
    cbn [tl]. destruct (split_ws_cons s) as (w & ws & E).
    rewrite E in *. destruct ws as [|w' ws]; [reflexivity|].
    cbn [tl hd] in *. change (nonempty w && innerNonempty (w' :: ws) = true).
    rewrite IHt, andb_true_r. apply IHh; [reflexivity|].
    intros ->. discriminate E.
  - destruct (split_ws_cons s) as (w & ws & E). rewrite E in *.
    split; [exact IHt | reflexivity].
Qed.

Lemma chunkWords_no_empty (words : list str) :
  innerNonempty words = true ->
  forall cur, cur <> [] -> ~ In [] (chunkWords cur words).
Proof.
  induction words as [|word rest IH]; intros Hin cur Hcur.
  - simpl. destruct cur; [now elim Hcur|]. simpl. intros [H|[]]. discriminate H.
  - assert (Hrest : innerNonempty rest = true).
    { destruct rest as [|r rest]; [reflexivity|].
      change (nonempty word && innerNonempty (r :: rest) = true) in Hin.
      now apply andb_true_iff in Hin as [_ Hin]. }
    simpl. destruct (length (cur ++ SP :: word) <=? CHUNK_SIZE).
    + apply (IH Hrest). destruct cur; [now elim Hcur | discriminate].
    + intros [H|H]; [now elim Hcur|].
      destruct rest as [|r rest].
      * simpl in H. destruct word; simpl in H; [contradiction|].
        destruct H as [H|[]]. discriminate H.
      * change (nonempty word && innerNonempty (r :: rest) = true) in Hin.
        apply andb_true_iff in Hin as [Hw _].
        apply (IH Hrest word); [|exact H]. intros ->. discriminate Hw.
Qed.

Lemma chunkWords_empty_chunk (words : list str) :
  innerNonempty words = true ->
  In [] (chunkWords [] words) ->
  CHUNK_SIZE <= length (hd [] (filter nonempty words)).
Proof.
  destruct words as [|word rest]; intros Hin H; [contradiction|].
  assert (Hrest : innerNonempty rest = true).
  { destruct rest as [|r rest]; [reflexivity|].
    change (nonempty word && innerNonempty (r :: rest) = true) in Hin.
    now apply andb_true_iff in Hin as [_ Hin]. }
  destruct word as [|c word].
  - destruct rest as [|r rest]; [contradiction | discriminate Hin].
  - simpl filter. cbn [hd].
    change (chunkWords [] ((c :: word) :: rest))
      with (if length (SP :: c :: word) <=? CHUNK_SIZE
            then chunkWords (c :: word) rest
            else [] :: chunkWords (c :: word) rest) in H.
    destruct (length (SP :: c :: word) <=? CHUNK_SIZE) eqn:T.
    + elim (chunkWords_no_empty rest Hrest (c :: word)); [discriminate | exact H].
    + apply Nat.leb_gt in T. simpl in *. unfold CHUNK_SIZE in *. lia.
Qed.

Lemma chunkWords_first_word_long (words : list str) (t : str) (ts : list str) :
  filter nonempty words = t :: ts -> CHUNK_SIZE <= length t ->
  In [] (chunkWords [] words).
Proof.
  induction words as [|[|c w] rest IH]; intros F L; [discriminate F| |].
  - simpl in *. now apply IH.
  - simpl in F. injection F as <- _.
    change (chunkWords [] ((c :: w) :: rest))
      with (if length (SP :: c :: w) <=? CHUNK_SIZE
            then chunkWords (c :: w) rest
            else [] :: chunkWords (c :: w) rest).
    assert (T : (length (SP :: c :: w) <=? CHUNK_SIZE) = false).
    { apply Nat.leb_gt. simpl in *. lia. }
    rewrite T. now left.
Qed.

(** The chunk list holds an empty chunk exactly when the first word of the
    text has 800 characters or more: the test that admits a word counts a
    separator also in front of the first word, and the empty accumulator is
    pushed. *)
Theorem empty_chunk_iff_long_first_word (text : str) :
  In [] (chunkText text) <-> 800 <= length (hd [] (tokens text)).
Proof.
  unfold chunkText, tokens. destruct (split_ws_cons text) as (w & ws & E).
  pose proof (proj1 (split_ws_shape text)) as Sh. rewrite E in *. cbn [tl] in Sh.
  split.
  - intros H. destruct w as [|c w].
    + change (chunkWords [] ([] :: ws)) with (chunkWords [] ws) in H.
      change (filter nonempty ([] :: ws)) with (filter nonempty ws).
      now apply chunkWords_empty_chunk.
    + simpl filter. cbn [hd].
      change (chunkWords [] ((c :: w) :: ws))
        with (if length (SP :: c :: w) <=? CHUNK_SIZE
              then chunkWords (c :: w) ws
              else [] :: chunkWords (c :: w) ws) in H.
      destruct (length (SP :: c :: w) <=? CHUNK_SIZE) eqn:T.
      * elim (chunkWords_no_empty ws Sh (c :: w)); [discriminate | exact H].
      * apply Nat.leb_gt in T. simpl in *. unfold CHUNK_SIZE in T. lia.
  - intros H. destruct (filter nonempty (w :: ws)) as [|t ts] eqn:F.
    + simpl in H. lia.
    + now apply (chunkWords_first_word_long (w :: ws) t ts).
Qed.

(** ** Query terms *)

Lemma split_ws_In (s : str) :
  forall w c, In w (split_ws s) -> In c w -> In c s.
Proof.
  induction s as [|a s IH]; intros w c Hw Hc.
  - simpl in Hw. destruct Hw as [<-|[]]. contradiction.
  - simpl in Hw. destruct (is_space a).
    + right. destruct (starts_with_space s); [now apply (IH w)|].
      destruct Hw as [<-|Hw]; [contradiction | now apply (IH w)].
    + destruct (split_ws s) as [|w' ws] eqn:E.
      * destruct Hw as [<-|[]]. destruct Hc as [<-|[]]. now left.
      * destruct Hw as [<-|Hw].
        -- destruct Hc as [<-|Hc]; [now left | right].
           apply (IH w'); [now left | exact Hc].
        -- right. apply (IH w); [now right | exact Hc].
Qed.

Lemma lowerChar_idempotent (c : ascii) : lowerChar (lowerChar c) = lowerChar c.
Proof. destruct c as [[] [] [] [] [] [] [] []]; reflexivity. Qed.

(** Every term of a query is in lower case and holds neither white space
    nor a stripped character; so no term holds a full stop, a question mark
    or a parenthesis when it reaches the pattern parser. *)
Theorem queryTerms_chars (query : str) :
  Forall (fun t => forallb termChar t = true) (queryTerms query).
Proof.
  unfold queryTerms. apply Forall_forall. intros t Ht.
  apply in_map_iff in Ht as (w & <- & Hw).
  apply filter_In in Hw as [Hw _].
  apply forallb_forall. intros c Hc.
  unfold stripPunct in Hc. apply filter_In in Hc as [Hc Hp].
  unfold termChar. rewrite Hp. simpl.
  pose proof (split_ws_spaceless (toLowerCase query)) as Sp.
  rewrite Forall_forall in Sp. specialize (Sp w Hw). unfold spaceless in Sp.
  rewrite forallb_forall in Sp. rewrite (Sp c Hc). simpl.
  pose proof (split_ws_In (toLowerCase query) w c Hw Hc) as Hq.
  unfold toLowerCase in Hq. apply in_map_iff in Hq as (c' & <- & _).
  rewrite lowerChar_idempotent. apply Ascii.eqb_refl.
Qed.

(** ** Counting matches *)

Lemma literalPrefix_length (t s : str) :
  literalPrefix t s = true -> length t <= length s.
Proof.
  revert s. induction t as [|c t IH]; intros s H; simpl; [lia|].
  destruct s as [|x s]; [discriminate H|].
  simpl in H. apply andb_true_iff in H as [_ H]. specialize (IH s H). simpl. lia.
Qed.

Lemma countLiteral_room (t : str) :
  t <> [] ->
  forall s skip, countLiteral t skip s * length t <= length s - skip.
Proof.
  intros Ht. induction s as [|x s IH]; intros skip.
  - simpl. destruct skip; [|simpl; lia].
    destruct t; [now elim Ht | simpl; lia].
  - simpl countLiteral. destruct skip as [|k].
    + destruct (literalPrefix t (x :: s)) eqn:P.
      * apply literalPrefix_length in P. specialize (IH (pred (length t))).
        simpl in *. destruct t; [now elim Ht|]. simpl in *. lia.
      * specialize (IH 0). simpl. lia.
    + specialize (IH k). simpl. lia.
Qed.

(** The matches of a plain term do not overlap: their number times the
    length of the term is at most the length of the text searched. *)
Theorem plain_term_matches_fit (beyond : str -> str -> res nat) (t subject : str) :
  plain t -> t <> [] ->
  exists n,
    regexpMatchCount beyond t subject = Ok n
    /\ n * length t <= length subject.
Proof.
  intros Hp Ht. exists (countLiteral t 0 subject).
  split; [now apply regexpMatchCount_plain|].
  pose proof (countLiteral_room t Ht subject 0). lia.
Qed.

Lemma plain_term_matches_fit_witness :
  exists n,
    regexpMatchCount (regexpBeyond echoWorld) (lit "aa") (lit "aaaaa") = Ok n
    /\ n * 2 <= 5.
Proof.
  apply (plain_term_matches_fit (regexpBeyond echoWorld) (lit "aa") (lit "aaaaa"));
    [reflexivity | discriminate].
Defined.

Lemma countFrom_bound (p : pattern) (s : str) :
  forall skip atStart, countFrom p skip atStart s <= S (length s).
Proof.
  induction s as [|x s IH]; intros skip atStart; simpl.
  - destruct skip; [destruct (matchAt p atStart [])|]; lia.
  - destruct skip as [|k].
    + destruct (matchAt p atStart (x :: s)).
      * specialize (IH (pred n) false). lia.
      * specialize (IH 0 false). lia.
    + specialize (IH k false). lia.
Qed.

(** A pattern of the fragment matches at most once per index of the text,
    the index behind the last character included. *)
Theorem match_count_bound (beyond : str -> str -> res nat)
    (source subject : str) (p : pattern) :
  parsePattern source = Parsed p ->
  exists n,
    regexpMatchCount beyond source subject = Ok n /\ n <= length subject + 1.
Proof.
  intros H. unfold regexpMatchCount. rewrite H. eexists. split; [reflexivity|].
  unfold matchCount. pose proof (countFrom_bound p subject 0 true). lia.
Qed.

Lemma match_count_bound_witness :
  exists n,
    regexpMatchCount (regexpBeyond echoWorld) (lit "a*|b") (lit "baaac") = Ok n
    /\ n <= 6.
Proof.
  exact (match_count_bound (regexpBeyond echoWorld) (lit "a*|b") (lit "baaac")
           _ eq_refl).
Defined.

Lemma scoreChunks_plain_terms_witness :
  scoreChunks (regexpBeyond echoWorld) [lit "vacation"; lit "policy"] sampleChunks
  = Ok [ {| chunk := lit "policy b"; score := 1 |};
         {| chunk := lit "vacation policy"; score := 2 |};
         {| chunk := lit "policy a"; score := 1 |};
         {| chunk := lit "unrelated"; score := 0 |};
         {| chunk := lit "policy c"; score := 1 |} ].
Proof.
  apply (scoreChunks_plain_terms (regexpBeyond echoWorld)
           [lit "vacation"; lit "policy"] sampleChunks).
  repeat constructor.
Defined.

(** ** Case *)

Lemma canonicalize_lowerChar (x : ascii) :
  canonicalize (lowerChar x) = canonicalize x.
Proof. destruct x as [[] [] [] [] [] [] [] []]; reflexivity. Qed.

Lemma sameChar_lowerChar (c x : ascii) : sameChar c (lowerChar x) = sameChar c x.
Proof. unfold sameChar. now rewrite canonicalize_lowerChar. Qed.

Lemma greedy_toLowerCase (c : ascii) (k : bool -> str -> option nat) :
  (forall b s, k b (toLowerCase s) = k b s) ->
  forall s b, greedy c k b (toLowerCase s) = greedy c k b s.
Proof.
  intros Hk. induction s as [|x s IH]; intros b.
  - apply (Hk b []).
  - change (toLowerCase (x :: s)) with (lowerChar x :: toLowerCase s).
    simpl greedy. rewrite sameChar_lowerChar, IH.
    change (lowerChar x :: toLowerCase s) with (toLowerCase (x :: s)).
    now rewrite (Hk b (x :: s)).
Qed.

Lemma matchTerms_toLowerCase (ts : alternative) :
  forall b s, matchTerms ts b (toLowerCase s) = matchTerms ts b s.
Proof.
  induction ts as [|t ts IH]; intros b s; [reflexivity|].
  destruct t as [c|c|c| |]; simpl.
  - destruct s as [|x s]; [reflexivity|]. simpl.
    now rewrite sameChar_lowerChar, IH.
  - now apply greedy_toLowerCase.
  - destruct s as [|x s]; [reflexivity|]. simpl.
    rewrite sameChar_lowerChar.
    now rewrite (greedy_toLowerCase c (matchTerms ts) IH s false).
  - destruct b; [apply IH | reflexivity].
  - destruct s as [|x s]; [apply (IH b []) | reflexivity].
Qed.

Lemma matchAt_toLowerCase (p : pattern) :
  forall b s, matchAt p b (toLowerCase s) = matchAt p b s.
Proof.
  induction p as [|a p IH]; intros b s; [reflexivity|].
  simpl. now rewrite matchTerms_toLowerCase, IH.
Qed.

Lemma countFrom_toLowerCase (p : pattern) (s : str) :
  forall skip b, countFrom p skip b (toLowerCase s) = countFrom p skip b s.
Proof.
  induction s as [|x s IH]; intros skip b; [reflexivity|].
  change (toLowerCase (x :: s)) with (lowerChar x :: toLowerCase s).
  cbn [countFrom]. destruct skip as [|k]; [|apply IH].
  change (lowerChar x :: toLowerCase s) with (toLowerCase (x :: s)).
  rewrite (matchAt_toLowerCase p b (x :: s)).
  destruct (matchAt p b (x :: s)); now rewrite IH.
Qed.

(** Under the [i] flag the lower-casing of the chunk changes no count: a
    pattern of the fragment matches the chunk as written as often as the
    chunk in lower case. *)
Theorem lower_casing_changes_no_count (beyond : str -> str -> res nat)
    (source c : str) (p : pattern) :
  parsePattern source = Parsed p ->
  regexpMatchCount beyond source (toLowerCase c)
  = regexpMatchCount beyond source c.
Proof.
  intros H. unfold regexpMatchCount. rewrite H. unfold matchCount.
  now rewrite countFrom_toLowerCase.
Qed.

Lemma lower_casing_changes_no_count_witness :
  regexpMatchCount (regexpBeyond echoWorld) (lit "policy")
    (toLowerCase (lit "Vacation POLICY: the Policy"))
  = regexpMatchCount (regexpBeyond echoWorld) (lit "policy")
      (lit "Vacation POLICY: the Policy").
Proof.
  exact (lower_casing_changes_no_count (regexpBeyond echoWorld) (lit "policy")
           (lit "Vacation POLICY: the Policy") _ eq_refl).
Defined.

(** ** Terms that are no pattern *)

Lemma scoreTerms_invalid (beyond : str -> str -> res nat) (chunkLower t : str)
    (terms : list str) :
  In t terms -> parsePattern t = Invalid ->
  forall acc, exists e, scoreTerms beyond chunkLower terms acc = Throw e.
Proof.
  induction terms as [|u terms IH]; intros Hin Hp acc; [contradiction|].
  simpl. destruct Hin as [->|Hin].
  - unfold regexpMatchCount. rewrite Hp. now exists SyntaxError.
  - destruct (regexpMatchCount beyond u chunkLower) as [n|e].
    + now apply IH.
    + now exists e.
Qed.

(** A query with a term that is no pattern, a quantifier with nothing to
    repeat, makes the retrieval throw as soon as there is a chunk to
    score. *)
Theorem invalid_term_throws (beyond : str -> str -> res nat)
    (pdfChunks : list str) (query t : str) :
  In t (queryTerms query) -> parsePattern t = Invalid -> pdfChunks <> [] ->
  exists e, retrieveRelevantContent beyond pdfChunks query = Throw e.
Proof.
  intros Hin Hp Hc. unfold retrieveRelevantContent.
  destruct (queryTerms query) as [|u terms] eqn:T; [contradiction|].
  destruct pdfChunks as [|c chunks]; [now elim Hc|].
  simpl scoreChunks. unfold scoreChunk.
  destruct (scoreTerms_invalid beyond (toLowerCase c) t (u :: terms) Hin Hp 0)
    as (e & E).
  rewrite E. now exists e.
Qed.

Lemma invalid_term_throws_witness :
  exists e,
    retrieveRelevantContent (regexpBeyond echoWorld) sampleChunks
      (lit "Is C++? allowed") = Throw e.
Proof.
  apply (invalid_term_throws (regexpBeyond echoWorld) sampleChunks
           (lit "Is C++? allowed") (lit "c++"));
    [vm_compute; tauto | reflexivity | discriminate].
Defined.

(** ** Retrieved chunks *)

Lemma In_firstn {A : Type} (n : nat) (x : A) (l : list A) :
  In x (firstn n l) -> In x l.
Proof.
  intros H. rewrite <- (firstn_skipn n l). apply in_or_app. now left.
Qed.

Lemma sortByScore_In (x : scoredChunk) (l : list scoredChunk) :
  In x (sortByScore l) -> In x l.
Proof. apply Permutation_in, sortByScore_perm. Qed.

(** Whatever is retrieved is a chunk of the list, and there are three at
    most. *)
Theorem retrieved_are_chunks (beyond : str -> str -> res nat)
    (pdfChunks found : list str) (query : str) :
  retrieveRelevantContent beyond pdfChunks query = Ok found ->
  incl found pdfChunks /\ length found <= 3.
Proof.
  unfold retrieveRelevantContent. destruct (queryTerms query) as [|t terms].
  - intros E. injection E as <-. split; [intros x []| simpl; lia].
  - destruct (scoreChunks beyond (t :: terms) pdfChunks) as [items|e] eqn:S;
      [|discriminate].
    intros E. injection E as <-. split.
    + intros c Hc. unfold topChunks in Hc. apply in_map_iff in Hc as (x & <- & Hx).
      apply In_firstn, sortByScore_In, filter_In in Hx as [Hx _].
      rewrite <- (scoreChunks_chunks beyond (t :: terms) pdfChunks items S).
      now apply in_map.
    + unfold topChunks. rewrite length_map. apply firstn_le_length.
Qed.

Lemma retrieved_are_chunks_witness :
  incl [lit "vacation policy"; lit "policy b"; lit "policy a"] sampleChunks
  /\ 3 <= 3.
Proof.
  exact (retrieved_are_chunks (regexpBeyond echoWorld) sampleChunks
           [lit "vacation policy"; lit "policy b"; lit "policy a"]
           (lit "Vacation policy?") eq_refl).
Defined.

(** ** Requests that fail *)

(** A session id that names a member inherited from [Object.prototype]
    finds that member in place of a memory: the request is answered 500
    with a TypeError before any call, and nothing is stored. *)
Theorem inherited_session_id_fails
    (w : world) (req : request) (st : state) (text key : str) :
  message req = JStr text -> text <> [] ->
  sessionKey w req = Some key -> inherited key = true ->
  chat w req st = (R500 TypeError, st, []).
Proof.
  intros Hm Ht Hk Hi. unfold chat, sessionKey in *.
  rewrite Hm, (valid_message_passes text Ht).
  now rewrite (chatBody_inherited _ _ _ _ _ _ _ Hk Hi).
Qed.

Lemma inherited_session_id_fails_witness :
  chat echoWorld
    {| message := JStr (lit "hello"); useRAG := JBool false;
       sessionId := JStr (lit "constructor"); mode := JUndefined |}
    initialState
  = (R500 TypeError, initialState, []).
Proof.
  apply (inherited_session_id_fails echoWorld _ initialState (lit "hello")
           (lit "constructor"));
    [reflexivity | discriminate | reflexivity | reflexivity].
Defined.

(** A session id that makes no property key, an object whose coercion to
    a string throws, stops the request at the look-up of the memory: the
    answer is 500 with a TypeError, before any call, and nothing is
    stored. *)
Theorem uncoercible_session_id_fails
    (w : world) (req : request) (st : state) (text : str) :
  message req = JStr text -> text <> [] ->
  sessionKey w req = None ->
  chat w req st = (R500 TypeError, st, []).
Proof.
  intros Hm Ht Hk. unfold chat, sessionKey in *.
  rewrite Hm, (valid_message_passes text Ht).
  now rewrite (chatBody_no_key _ _ _ _ _ _ Hk).
Qed.

Lemma uncoercible_session_id_fails_witness :
  chat noKeyWorld
    {| message := JStr (lit "hello"); useRAG := JUndefined;
       sessionId := JObject; mode := JUndefined |}
    initialState
  = (R500 TypeError, initialState, []).
Proof.
  apply (uncoercible_session_id_fails noKeyWorld _ initialState (lit "hello"));
    [reflexivity | discriminate | reflexivity].
Defined.

Lemma ragStep_no_call (w : world) (useRAG : jsval) (text : str) (st : state) :
  Forall (fun e => isCall e = false) (snd (ragStep w useRAG text st)).
Proof.
  unfold ragStep. destruct (truthy useRAG); [|constructor].
  unfold bind, emit, retrieve.
  pose proof (loadPDF_memories w st) as [_ He].
  destruct (loadPDF w st) as [[[x|e] st1] ev1]; simpl in *; subst ev1.
  - destruct (retrieveRelevantContent (regexpBeyond w) (pdfChunks st1) text);
      repeat constructor.
  - repeat constructor.
Qed.

(** When the retrieval step throws, in either mode, the answer is the 500
    failure with that error; neither agent nor model is called and no
    history changes. *)
Theorem retrieval_failure_is_500
    (w : world) (req : request) (st st2 : state) (text : str) (e : exn)
    (ev : list event) (key : str) :
  message req = JStr text -> text <> [] ->
  sessionKey w req = Some key -> inherited key = false ->
  ragStep w (nullish (useRAG req) (JBool true)) text (withSession key st)
  = (Throw e, st2, ev) ->
  chat w req st = (R500 e, st2, ev)
  /\ Forall (fun c => isCall c = false) ev
  /\ forall k, history st2 k = history st k.
Proof.
  intros Hm Ht Hk Hi Hr. unfold sessionKey in *.
  set (sid := orDefault (sessionId req) (JStr (lit "default"))) in *.
  pose proof (ragStep_no_call w (nullish (useRAG req) (JBool true)) text
                (withSession key st)) as Ev.
  pose proof (fun k => ragStep_history w (nullish (useRAG req) (JBool true)) text
                (withSession key st) k) as Hh.
  rewrite Hr in Ev, Hh. simpl in Ev, Hh.
  split; [|split; [exact Ev|]].
  - unfold chat. rewrite Hm, (valid_message_passes text Ht). fold sid.
    rewrite (chatBody_own _ _ _ _ _ _ _ Hk Hi). cbv zeta. simpl asString.
    now rewrite Hr.
  - intros k. now rewrite Hh, history_withSession.
Qed.

Lemma retrieval_failure_is_500_witness :
  exists st2,
    chat (withFile (Some (Throw (Failure (lit "corrupt file")))) echoWorld)
         (basicRequest (lit "leave")) initialState
    = (R500 (Failure (lit "corrupt file")), st2, [EvLoadPDF]).
Proof.
  eexists.
  refine (proj1 (retrieval_failure_is_500
                   (withFile (Some (Throw (Failure (lit "corrupt file")))) echoWorld)
                   (basicRequest (lit "leave")) initialState _ (lit "leave")
                   (Failure (lit "corrupt file")) [EvLoadPDF] (lit "default")
                   eq_refl _ eq_refl eq_refl eq_refl)).
  discriminate.
Defined.

(** ** Requests answered by the chat model *)

(** With useRAG off the document is neither loaded nor searched: the model
    gets the generic instruction, the history and the message, the answer
    has no sources, and the turn is stored. *)
Theorem without_rag
    (w : world) (req : request) (st : state) (text reply key : str) :
  message req = JStr text -> text <> [] ->
  truthy (nullish (useRAG req) (JBool true)) = false ->
  agentMode req = false ->
  sessionKey w req = Some key -> inherited key = false ->
  let messages :=
    {| msgRole := system; content := genericPrompt |}
      :: history st key ++ [ {| msgRole := user; content := text |} ] in
  chatInvoke w messages = Ok reply ->
  exists st',
    chat w req st = (R200 reply [], st', [EvModel messages])
    /\ pdfText st' = pdfText st /\ pdfChunks st' = pdfChunks st
    /\ history st' key
       = history st key
           ++ [ {| msgRole := user; content := text |};
                {| msgRole := assistant; content := reply |} ].
Proof.
  intros Hm Hne Hrag Hmode Hk Hi messages Hinv.
  unfold sessionKey, agentMode in *.
  set (sid := orDefault (sessionId req) (JStr (lit "default"))) in *.
  destruct (withSession_pdf key st) as [Wt Wc].
  unfold chat. rewrite Hm, (valid_message_passes text Hne). fold sid.
  rewrite (chatBody_own _ _ _ _ _ _ _ Hk Hi). cbv zeta. simpl asString.
  unfold ragStep. rewrite Hrag. unfold ret. rewrite Hmode.
  unfold systemMessage. rewrite Hrag, history_withSession.
  fold messages. rewrite Hinv. simpl app.
  eexists. split; [reflexivity|]. simpl.
  rewrite Wt, Wc. repeat split.
  now rewrite history_setMemory, str_eqb_refl.
Qed.

Lemma without_rag_witness :
  exists st',
    chat echoWorld
      {| message := JStr (lit "Hello"); useRAG := JBool false;
         sessionId := JUndefined; mode := JUndefined |}
      initialState
    = (R200 (lit "Hello") [], st',
       [EvModel [ {| msgRole := system; content := genericPrompt |};
                  {| msgRole := user; content := lit "Hello" |} ]]).
Proof.
  destruct (without_rag echoWorld
              {| message := JStr (lit "Hello"); useRAG := JBool false;
                 sessionId := JUndefined; mode := JUndefined |}
              initialState (lit "Hello") (lit "Hello") (lit "default")
              eq_refl ltac:(discriminate) eq_refl eq_refl eq_refl eq_refl
              eq_refl)
    as (st' & E & _).
  exists st'. exact E.
Defined.

(** Once a text is loaded the file is not looked at again: whatever has
    become of it, a request with useRAG on searches the chunks in memory,
    the model gets the excerpts found, or the refusal instruction when
    there are none, and the answer carries the chunks found as sources. *)
Theorem loaded_document_answers
    (w : world) (req : request) (st : state) (text reply : str)
    (c : ascii) (t : str) (sources : list str) (key : str) :
  pdfText st = Some (c :: t) ->
  message req = JStr text -> text <> [] ->
  truthy (nullish (useRAG req) (JBool true)) = true ->
  agentMode req = false ->
  sessionKey w req = Some key -> inherited key = false ->
  retrieveRelevantContent (regexpBeyond w) (pdfChunks st) text = Ok sources ->
  let messages :=
    {| msgRole := system;
       content := match sources with
                  | _ :: _ => excerptsPrompt sources
                  | [] => refusalPrompt
                  end |}
      :: history st key
      ++ [ {| msgRole := user; content := text |} ] in
  chatInvoke w messages = Ok reply ->
  exists st',
    chat w req st
    = (R200 reply sources, st', [EvLoadPDF; EvRetrieve text; EvModel messages])
    /\ pdfText st' = pdfText st /\ pdfChunks st' = pdfChunks st.
Proof.
  intros Hl Hm Hne Hrag Hmode Hk Hi Hret messages Hinv.
  unfold sessionKey, agentMode in *.
  set (sid := orDefault (sessionId req) (JStr (lit "default"))) in *.
  destruct (withSession_pdf key st) as [Wt Wc].
  unfold chat. rewrite Hm, (valid_message_passes text Hne). fold sid.
  rewrite (chatBody_own _ _ _ _ _ _ _ Hk Hi). cbv zeta. simpl asString.
  unfold ragStep. rewrite Hrag.
  unfold bind, emit, retrieve, loadPDF. rewrite Wt, Hl, Wc, Hret, Hmode.
  simpl app. unfold systemMessage. rewrite Hrag, history_withSession.
  fold messages. rewrite Hinv.
  eexists. split; [reflexivity|]. simpl. now rewrite Wt, Wc.
Qed.

Lemma loaded_document_answers_witness :
  exists st' messages,
    chat echoWorld (basicRequest (lit "leave"))
      {| sessionMemories := fun _ => None;
         pdfText := Some (lit "annual leave policy");
         pdfChunks := [lit "annual leave policy"] |}
    = (R200 (lit "leave") [lit "annual leave policy"], st',
       [EvLoadPDF; EvRetrieve (lit "leave"); EvModel messages]).
Proof.
  destruct (loaded_document_answers echoWorld (basicRequest (lit "leave"))
              {| sessionMemories := fun _ => None;
                 pdfText := Some (lit "annual leave policy");
                 pdfChunks := [lit "annual leave policy"] |}
              (lit "leave") (lit "leave") "a"%char (lit "nnual leave policy")
              [lit "annual leave policy"] (lit "default")
              eq_refl eq_refl ltac:(discriminate) eq_refl eq_refl eq_refl
              eq_refl eq_refl eq_refl)
    as (st' & E & _).
  exists st'. eexists. exact E.
Defined.

(** ** Calls *)

Lemma chat_events (w : world) (req : request) (st : state) :
  exists ev,
    Forall (fun e => isCall e = false) ev
    /\ (snd (chat w req st) = ev
        \/ (agentMode req = true
            /\ snd (chat w req st)
               = ev ++ [EvAgent (orDefault (sessionId req) (JStr (lit "default")))
                                (asString (message req))])
        \/ (agentMode req = false
            /\ exists sources key,
                 sessionKey w req = Some key
                 /\ snd (chat w req st)
                    = ev ++ [EvModel
                               (systemMessage (nullish (useRAG req) (JBool true))
                                              sources
                                  :: history st key
                                  ++ [ {| msgRole := user;
                                          content := asString (message req) |} ])])).
Proof.
  unfold chat, sessionKey, agentMode.
  destruct (negb (truthy (message req)) || negb (isString (message req)));
    [exists []; split; [constructor | now left]|].
  set (sid := orDefault (sessionId req) (JStr (lit "default"))).
  destruct (propertyKey w sid) as [key|] eqn:K.
  2:{ rewrite (chatBody_no_key _ _ _ _ _ _ K).
      exists []. split; [constructor | now left]. }
  destruct (inherited key) eqn:I.
  { rewrite (chatBody_inherited _ _ _ _ _ _ _ K I).
    exists []. split; [constructor | now left]. }
  rewrite (chatBody_own _ _ _ _ _ _ _ K I). cbv zeta.
  pose proof (ragStep_no_call w (nullish (useRAG req) (JBool true))
                (asString (message req)) (withSession key st)) as Ev.
  destruct (ragStep w _ _ _) as [[[sources|e] st2] ev]; simpl in Ev;
    exists ev; (split; [exact Ev|]); [|now left].
  destruct (isAgent (orDefault (mode req) (JStr (lit "basic")))).
  - right. left. split; [reflexivity|].
    now destruct (agentProcess w sid _).
  - right. right. split; [reflexivity|]. exists sources, key.
    split; [reflexivity|].
    rewrite history_withSession. now destruct (chatInvoke w _).
Qed.

Lemma filter_no_call (ev : list event) :
  Forall (fun e => isCall e = false) ev -> filter isCall ev = [].
Proof.
  induction 1 as [|x l Hx _ IH]; simpl; [reflexivity|]. now rewrite Hx.
Qed.

Lemma no_call_as_intended (w : world) (req : request) (st : state)
    (ev : list event) :
  Forall (fun e => isCall e = false) ev -> Forall (callAsIntended w req st) ev.
Proof.
  intros H. eapply Forall_impl; [|exact H].
  intros [| | |] E; simpl in E; try discriminate; exact I.
Qed.

(** A request makes one call at most, to the agent in agent mode and to
    the chat model otherwise; the agent gets the session id and the raw
    message, the model a system message, then the history as it was
    before the request, then the message. *)
Theorem one_call_per_request (w : world) (req : request) (st : state) :
  length (filter isCall (snd (chat w req st))) <= 1
  /\ Forall (callAsIntended w req st) (snd (chat w req st)).
Proof.
  destruct (chat_events w req st)
    as (ev & Ev & [E|[[A E]|[A (sources & key & K & E)]]]);
    rewrite E.
  - rewrite (filter_no_call ev Ev). split; [simpl; lia|].
    now apply no_call_as_intended.
  - rewrite filter_app, (filter_no_call ev Ev). split; [simpl; lia|].
    apply Forall_app. split; [now apply no_call_as_intended|].
    constructor; [|constructor]. simpl. now repeat split.
  - rewrite filter_app, (filter_no_call ev Ev). split; [simpl; lia|].
    apply Forall_app. split; [now apply no_call_as_intended|].
    constructor; [|constructor]. simpl. split; [exact A|].
    eexists. exists key. split; [exact K|]. split; [|reflexivity]. reflexivity.
Qed.

(** ** Histories *)

Lemma wholeTurns_app (h1 h2 : list chatMessage) :
  wholeTurns h1 -> wholeTurns h2 -> wholeTurns (h1 ++ h2).
Proof.
  intros (t1 & ->) (t2 & ->). exists (t1 ++ t2). now rewrite flat_map_app.
Qed.

Lemma wholeTurns_turnOf (key : str) (w : world) (req : request) (r : response) :
  wholeTurns (turnOf key w req r).
Proof.
  unfold turnOf. destruct r as [reply sources| |e]; try now exists [].
  destruct (agentMode req); [now exists []|].
  destruct (sessionKey w req) as [k|]; [|now exists []].
  destruct (str_eqb key k); [|now exists []].
  now exists [(asString (message req), reply)].
Qed.

(** Whatever requests were served since the start, every history consists
    of whole turns, a user message followed by the reply to it: none is
    left with a message that has no reply. *)
Theorem histories_are_whole_turns (script : list (world * request)) (key : str) :
  wholeTurns (history (snd (serve script initialState)) key).
Proof.
  assert (G : forall st, wholeTurns (history st key) ->
                         wholeTurns (history (snd (serve script st)) key)).
  { induction script as [|[w req] script IH]; intros st H; [exact H|].
    simpl. destruct (chat w req st) as [[r st1] ev] eqn:E.
    specialize (IH st1). destruct (serve script st1) as [rs st2].
    simpl in *. apply IH.
    rewrite (chat_history_step key w req st r st1 ev E).
    apply wholeTurns_app; [exact H | apply wholeTurns_turnOf]. }
  apply G. now exists [].
Qed.

(** A request leaves the history of every session but its own as it
    was. *)
Theorem other_sessions_untouched
    (w : world) (req : request) (st : state) (key : str) :
  sessionKey w req <> Some key ->
  history (snd (fst (chat w req st))) key = history st key.
Proof.
  intros H. destruct (chat w req st) as [[r st1] ev] eqn:E. simpl.
  rewrite (chat_history_step key w req st r st1 ev E).
  unfold turnOf. destruct r as [reply sources| |e]; try apply app_nil_r.
  destruct (agentMode req); [apply app_nil_r|].
  destruct (sessionKey w req) as [k|]; [|apply app_nil_r].
  destruct (str_eqb key k) eqn:K; [|apply app_nil_r].
  apply str_eqb_eq in K. subst k. now elim H.
Qed.

Lemma other_sessions_untouched_witness :
  history (snd (fst (chat echoWorld (basicRequest (lit "hello")) initialState)))
          (lit "alice")
  = history initialState (lit "alice").
Proof.
  apply other_sessions_untouched. discriminate.
Defined.

Lemma ragStep_sessions (w : world) (useRAG : jsval) (text : str) (st : state) :
  forall r st2 ev,
    ragStep w useRAG text st = (r, st2, ev) ->
    sessionMemories st2 = sessionMemories st.
Proof.
  intros r st2 ev E.
  pose proof (proj1 (ragStep_memories w useRAG text st)) as H.
  now rewrite E in H.
Qed.

Lemma withSession_kept (key k : str) (st : state) :
  sessionMemories st k <> None -> sessionMemories (withSession key st) k <> None.
Proof.
  unfold withSession. destruct (sessionMemories st key); [trivial|].
  simpl. now destruct (str_eqb k key).
Qed.

Lemma withSession_there (key : str) (st : state) :
  sessionMemories (withSession key st) key <> None.
Proof.
  unfold withSession. destruct (sessionMemories st key) eqn:E.
  - now rewrite E.
  - simpl. now rewrite str_eqb_refl.
Qed.

(** No request removes a session memory: there is no eviction. *)
Theorem sessions_are_kept (w : world) (req : request) (st : state) (k : str) :
  sessionMemories st k <> None ->
  sessionMemories (snd (fst (chat w req st))) k <> None.
Proof.
  intros H. unfold chat.
  destruct (negb (truthy (message req)) || negb (isString (message req)));
    [exact H|].
  set (sid := orDefault (sessionId req) (JStr (lit "default"))).
  destruct (propertyKey w sid) as [key|] eqn:K;
    [|now rewrite (chatBody_no_key _ _ _ _ _ _ K)].
  destruct (inherited key) eqn:I.
  { now rewrite (chatBody_inherited _ _ _ _ _ _ _ K I). }
  rewrite (chatBody_own _ _ _ _ _ _ _ K I). cbv zeta.
  pose proof (ragStep_sessions w (nullish (useRAG req) (JBool true))
                (asString (message req)) (withSession key st)) as R.
  pose proof (withSession_kept key k st H) as W.
  destruct (ragStep w _ _ _) as [[[sources|e] st2] ev];
    specialize (R _ _ _ eq_refl).
  2:{ simpl. now rewrite R. }
  destruct (isAgent (orDefault (mode req) (JStr (lit "basic")))).
  - destruct (agentProcess w sid _); simpl; now rewrite R.
  - destruct (chatInvoke w _); simpl; [|now rewrite R].
    destruct (str_eqb k key); [discriminate | now rewrite R].
Qed.

Lemma sessions_are_kept_witness :
  sessionMemories
    (snd (fst (chat echoWorld (basicRequest (lit "hello"))
                 (setMemory (lit "alice") [] initialState))))
    (lit "alice")
  <> None.
Proof.
  apply sessions_are_kept. discriminate.
Defined.

(** A request with a valid message and a session id of its own leaves the
    memory of its session in place, also when the request fails after
    that. *)
Theorem valid_request_creates_session
    (w : world) (req : request) (st : state) (text key : str) :
  message req = JStr text -> text <> [] ->
  sessionKey w req = Some key -> inherited key = false ->
  sessionMemories (snd (fst (chat w req st))) key <> None.
Proof.
  intros Hm Hne Hk Hi. unfold chat, sessionKey in *.
  rewrite Hm, (valid_message_passes text Hne).
  set (sid := orDefault (sessionId req) (JStr (lit "default"))) in *.
  rewrite (chatBody_own _ _ _ _ _ _ _ Hk Hi). cbv zeta.
  pose proof (ragStep_sessions w (nullish (useRAG req) (JBool true))
                (asString (JStr text)) (withSession key st)) as R.
  pose proof (withSession_there key st) as W.
  destruct (ragStep w _ _ _) as [[[sources|e] st2] ev];
    specialize (R _ _ _ eq_refl).
  2:{ simpl. now rewrite R. }
  destruct (isAgent (orDefault (mode req) (JStr (lit "basic")))).
  - destruct (agentProcess w sid _); simpl; now rewrite R.
  - destruct (chatInvoke w _); simpl; [|now rewrite R].
    now rewrite str_eqb_refl.
Qed.

Lemma valid_request_creates_session_witness :
  sessionMemories
    (snd (fst (chat (withFile (Some (Throw (Failure (lit "corrupt file")))) echoWorld)
                 (basicRequest (lit "hello")) initialState)))
    (lit "default")
  <> None.
Proof.
  apply (valid_request_creates_session
           (withFile (Some (Throw (Failure (lit "corrupt file")))) echoWorld)
           (basicRequest (lit "hello")) initialState (lit "hello")
           (lit "default"));
    [reflexivity | discriminate | reflexivity | reflexivity].
Defined.

(** ** The loaded document *)

Ltac case_retrieve :=
  repeat match goal with
         | |- context [retrieveRelevantContent ?a ?b ?c] =>
             destruct (retrieveRelevantContent a b c)
         end.

Lemma ragStep_pdf_cases (w : world) (useRAG : jsval) (q : str) (st : state) :
  (pdfText (snd (fst (ragStep w useRAG q st))) = pdfText st
   /\ pdfChunks (snd (fst (ragStep w useRAG q st))) = pdfChunks st)
  \/ exists text,
       pdfFile w = Some (Ok text)
       /\ (pdfText st = None \/ pdfText st = Some [])
       /\ pdfText (snd (fst (ragStep w useRAG q st))) = Some text
       /\ pdfChunks (snd (fst (ragStep w useRAG q st)))
          = pdfChunks st ++ chunkText text.
Proof.
  unfold ragStep. destruct (truthy useRAG); [|now left].
  unfold bind, emit, retrieve, loadPDF.
  destruct (pdfText st) as [[|c t]|] eqn:T;
    [destruct (pdfFile w) as [[text|e]|] eqn:F | |
     destruct (pdfFile w) as [[text|e]|] eqn:F];
    try (right; exists text; case_retrieve; simpl; now auto);
    left; case_retrieve; simpl; now rewrite ?T.
Qed.

Lemma chat_pdf_cases (w : world) (req : request) (st : state) :
  (pdfText (snd (fst (chat w req st))) = pdfText st
   /\ pdfChunks (snd (fst (chat w req st))) = pdfChunks st)
  \/ exists text,
       pdfFile w = Some (Ok text)
       /\ (pdfText st = None \/ pdfText st = Some [])
       /\ pdfText (snd (fst (chat w req st))) = Some text
       /\ pdfChunks (snd (fst (chat w req st))) = pdfChunks st ++ chunkText text.
Proof.
  unfold chat.
  destruct (negb (truthy (message req)) || negb (isString (message req)));
    [now left|].
  set (sid := orDefault (sessionId req) (JStr (lit "default"))).
  destruct (propertyKey w sid) as [key|] eqn:K;
    [|rewrite (chatBody_no_key _ _ _ _ _ _ K); now left].
  destruct (inherited key) eqn:I.
  { rewrite (chatBody_inherited _ _ _ _ _ _ _ K I). now left. }
  rewrite (chatBody_own _ _ _ _ _ _ _ K I). cbv zeta.
  pose proof (ragStep_pdf_cases w (nullish (useRAG req) (JBool true))
                (asString (message req)) (withSession key st)) as R.
  destruct (withSession_pdf key st) as [Wt Wc].
  rewrite Wt, Wc in R.
  destruct (ragStep w _ _ _) as [[[sources|e] st2] ev]; simpl in R; [|exact R].
  destruct (isAgent (orDefault (mode req) (JStr (lit "basic")))).
  - now destruct (agentProcess w sid _).
  - now destruct (chatInvoke w _).
Qed.

Lemma chat_chunksOfText (w : world) (req : request) (st : state) :
  chunksOfText st -> chunksOfText (snd (fst (chat w req st))).
Proof.
  unfold chunksOfText. intros H.
  destruct (chat_pdf_cases w req st) as [[Et Ec]|(text & _ & [T|T] & Et & Ec)];
    rewrite Et, Ec.
  - exact H.
  - rewrite T in H. now rewrite H.
  - rewrite T in H. now rewrite H.
Qed.

(** Whatever requests were served since the start, the chunk list is the
    chunking of the text that is loaded, and empty while none is: no later
    request adds chunks a second time. *)
Theorem chunks_are_those_of_the_text (script : list (world * request)) :
  chunksOfText (snd (serve script initialState)).
Proof.
  assert (G : forall st, chunksOfText st -> chunksOfText (snd (serve script st))).
  { induction script as [|[w req] script IH]; intros st H; [exact H|].
    simpl. pose proof (chat_chunksOfText w req st H) as C.
    destruct (chat w req st) as [[r st1] ev].
    specialize (IH st1 C). now destruct (serve script st1). }
  now apply G.
Qed.

(** A text once loaded stays: no request changes it or the chunks, not
    even when the file has changed or is gone. *)
Theorem loaded_document_stays
    (script : list (world * request)) (st : state) (c : ascii) (t : str) :
  pdfText st = Some (c :: t) ->
  pdfText (snd (serve script st)) = pdfText st
  /\ pdfChunks (snd (serve script st)) = pdfChunks st.
Proof.
  revert st. induction script as [|[w req] script IH]; intros st H; [now split|].
  simpl.
  destruct (chat_pdf_cases w req st) as [[Et Ec]|(text & _ & [T|T] & _)];
    [|congruence|congruence].
  destruct (chat w req st) as [[r st1] ev]. simpl in Et, Ec.
  assert (H1 : pdfText st1 = Some (c :: t)) by congruence.
  specialize (IH st1 H1). destruct (serve script st1) as [rs st2].
  simpl in *. destruct IH as [IHt IHc]. split; congruence.
Qed.

Lemma loaded_document_stays_witness :
  pdfChunks
    (snd (serve
            [(withFile (Some (Ok (lit "another text"))) echoWorld,
              basicRequest (lit "leave"))]
            {| sessionMemories := fun _ => None;
               pdfText := Some (lit "annual leave policy");
               pdfChunks := [lit "annual leave policy"] |}))
  = [lit "annual leave policy"].
Proof.
  exact (proj2 (loaded_document_stays
                  [(withFile (Some (Ok (lit "another text"))) echoWorld,
                    basicRequest (lit "leave"))]
                  {| sessionMemories := fun _ => None;
                     pdfText := Some (lit "annual leave policy");
                     pdfChunks := [lit "annual leave policy"] |}
                  "a"%char (lit "nnual leave policy") eq_refl)).
Defined.
